(** * Charge-cycle detection of the WeBike toolchain (data/ChargeCycle.py)

    A shallow embedding of [daterange], [smooth], [discharge_curr_to_ampere],
    [can_merge], [merge_cycles], [extract_cycles_curr], [extract_cycles_soc]
    and of the computation of [preprocess_cycles], followed by the properties
    of the specification that concern them and by further properties of the
    code.

    Modelling decisions, shared by the whole file:
    - Python numbers (int and float) are exact rationals [Q]: the rounding of
      floats is not modelled, and the properties are about the control flow
      and about the formulas that are evaluated, not about numeric bounds on
      their values.  A datetime is an integer number of time units [Z]
      (seconds in the examples), without the bounds of Python's [datetime],
      and a timedelta is the difference of two of them.
    - An exception is a value of [pyerror] carried by [result].
    - [smooth] reads and writes keys chosen by its caller, so its samples are
      dictionaries ([gmap string pyval]).  The extractors and the merger read
      the fixed columns of the SQL query of [preprocess_cycles], so their
      samples are records of these columns. *)

From Stdlib Require Import ZArith QArith Lqa.
From stdpp Require Import gmap strings list fin_maps.

Open Scope Z_scope.

(** ** Exceptions *)

Inductive pyerror := TypeError | IndexError | AssertionError | ZeroDivisionError.

Inductive result (A : Type) :=
| Ok (a : A)
| Err (e : pyerror).
Arguments Ok {A} a.
Arguments Err {A} e.

#[global] Instance result_ret : MRet result := fun A a => Ok a.
#[global] Instance result_bind : MBind result :=
  fun A B f m => match m with Ok a => f a | Err e => Err e end.

(** ** Numbers *)

Definition Qltb (a b : Q) : bool := negb (Qle_bool b a).
Definition Qgtb (a b : Q) : bool := Qltb b a.

(** [x / y] on Python numbers. *)
Definition py_div (x y : Q) : result Q :=
  if Qeq_bool y 0 then Err ZeroDivisionError else Ok (x / y)%Q.

(** ** Dictionaries for [smooth] *)

Module Smooth.

Inductive pyval :=
| VNone
| VNum (q : Q)
| VStamp (t : Z).

(** Truth value of an object: [None] and zero are false, a datetime is
    true. *)
Definition truthy (v : pyval) : bool :=
  match v with
  | VNone => false
  | VNum q => negb (Qeq_bool q 0)
  | VStamp _ => true
  end.

(** A dict is true when it is not empty. *)
Definition dict_truthy (d : gmap string pyval) : bool :=
  negb (Nat.eqb (size d) 0).

(** [d and key in d and d[key]], for [d] a dict or [None]. *)
Definition available (d : option (gmap string pyval)) (key : string) : bool :=
  match d with
  | None => false
  | Some d =>
      dict_truthy d &&
      match d !! key with
      | Some v => truthy v
      | None => false
      end
  end.

(** [d[key]] where the guard [available] has been passed. *)
Definition item (d : option (gmap string pyval)) (key : string) : pyval :=
  match d with
  | Some d => default VNone (d !! key)
  | None => VNone
  end.

(** [alpha * prev + (1 - alpha) * raw]; a float times a datetime raises. *)
Definition smoothing_function (alpha : Q) (prev raw : pyval) : result pyval :=
  match prev, raw with
  | VNum p, VNum r => Ok (VNum (alpha * p + (1 - alpha) * r)%Q)
  | _, _ => Err TypeError
  end.

(** [if not label_smooth: label_smooth = label + '_smooth'] *)
Definition smooth_label (label : string) (label_smooth : option string) : string :=
  match label_smooth with
  | None => label +:+ "_smooth"
  | Some s => if String.eqb s "" then label +:+ "_smooth" else s
  end.

Section Loop.
Variable alpha : Q.
Variable default_value : pyval.
Variables label label_smooth : string.

(** The value the loop body assigns to [sample[label_smooth]]. *)
Definition smooth_value (last_sample : option (gmap string pyval))
    (sample : gmap string pyval) : result pyval :=
  if negb (available (Some sample) label) then
    if negb (available last_sample label_smooth) then
      Ok default_value
    else
      Ok (item last_sample label_smooth)
  else
    if negb (available last_sample label_smooth) then
      Ok (item (Some sample) label)
    else
      smoothing_function alpha (item last_sample label_smooth)
                         (item (Some sample) label).

(** The [for] loop; the samples are dicts (possibly empty) that are updated
    in place, the result is the list after the updates. *)
Fixpoint smooth_loop (last_sample : option (gmap string pyval))
    (samples : list (gmap string pyval)) : result (list (gmap string pyval)) :=
  match samples with
  | [] => Ok []
  | sample :: rest =>
      v ← smooth_value last_sample sample;
      let sample' := <[label_smooth := v]> sample in
      rest' ← smooth_loop (Some sample') rest;
      Ok (sample' :: rest')
  end.
End Loop.

Definition smooth (samples : list (gmap string pyval)) (label : string)
    (label_smooth : option string) (alpha : Q) (default_value : pyval)
    : result (list (gmap string pyval)) :=
  smooth_loop alpha default_value label (smooth_label label label_smooth)
              None samples.

(** A raw attribute that is missing, [None] or zero. *)
Definition absent_or_falsy (o : option pyval) : Prop :=
  o = None \/ o = Some VNone \/ exists q, o = Some (VNum q) /\ (q == 0)%Q.


(** The smoothed attribute of every sample after a run. *)
Definition smoothed_values (label_smooth : string)
    (run : result (list (gmap string pyval))) : result (list (option pyval)) :=
  out ← run;
  Ok (map (fun d : gmap string pyval => d !! label_smooth) out).


(** A sample with a timestamp and a value of the attribute ["v"]. *)
Definition row (t : Z) (v : pyval) : gmap string pyval :=
  <["v" := v]> (<["Stamp" := VStamp t]> ∅).

End Smooth.

(** ** Samples, cycles and intervals *)

(** A row of the query of [preprocess_cycles], with the columns that the
    extractors read and a number in each of them.  A row is a dict with
    keys, so it is true in [if not charge_start] and [if charge_end].
    [soc_diff] is the key that [extract_cycles_soc] adds to the row; it is
    [None] until then.

    The query filters the rows without [ChargingCurr] but not those without
    [soc_smooth].  On a row whose [soc_smooth] is [None] the extractors raise
    a type error where they compute with it (the differences of
    [extract_cycles_curr] and [extract_cycles_soc], the sums of the
    derivative); such rows are not values of this record, and the runs below
    are runs on rows with numbers. *)
Record Sample := {
  Stamp : Z;
  ChargingCurr : Q;
  soc_smooth : Q;
  soc_diff : option Q
}.

Definition set_soc_diff (s : Sample) (d : Q) : Sample :=
  {| Stamp := Stamp s; ChargingCurr := ChargingCurr s;
     soc_smooth := soc_smooth s; soc_diff := Some d |}.

(** The tuple [(charge_start, charge_end, charge_sample_count, value)]. *)
Record Cycle := {
  cycle_start : Sample;
  cycle_end : Sample;
  sample_count : Q;
  thresh_value : Q
}.

(** The type codes of [preprocess_cycles]: ['A'], ['B'], ['S'], ['T'] and
    ['M'] (merged). *)
Inductive cycle_type := TypeA | TypeB | TypeS | TypeT | TypeM.

(** [can_merge] only reads [x[0]['Stamp']] and [x[1]['Stamp']]: it accepts
    the pair [(charge_start, charge_end)], the tuples of the extractors and
    the tagged tuples of [preprocess_cycles] alike. *)
Class Interval (T : Type) := {
  itv_start : T -> Sample;
  itv_end : T -> Sample
}.

#[global] Instance pair_interval : Interval (Sample * Sample) :=
  {| itv_start := fst; itv_end := snd |}.
#[global] Instance cycle_interval : Interval Cycle :=
  {| itv_start := cycle_start; itv_end := cycle_end |}.
#[global] Instance tagged_interval : Interval (Cycle * cycle_type) :=
  {| itv_start := fun c => cycle_start (fst c);
     itv_end := fun c => cycle_end (fst c) |}.

(** The first argument of [can_merge]: one tuple, or a list of which the
    last element is used. *)
Inductive merge_target (T : Type) :=
| Single (c : T)
| Sequence (l : list T).
Arguments Single {T} c.
Arguments Sequence {T} l.

(** ** can_merge *)

Definition can_merge {L N : Type} `{Interval L} `{Interval N}
    (last_cycle : merge_target L) (new_cycle : N) (merge_within : Z)
    : result bool :=
  let target :=
    match last_cycle with
    | Sequence l => last l
    | Single c => Some c
    end in
  match target with
  | None => Ok false
  | Some last_cycle =>
      let last_start := Stamp (itv_start last_cycle) in
      let last_end := Stamp (itv_end last_cycle) in
      let new_start := Stamp (itv_start new_cycle) in
      let new_end := Stamp (itv_end new_cycle) in
      if Z.max last_start new_start <=? Z.min last_end new_end then Ok true
      else
        let gap := new_start - last_end in
        if negb (0 <? gap) then Err AssertionError
        else if merge_within <? gap then Ok false
        else if new_end - new_start <? gap then Ok false
        else if last_end - last_start <? gap then Ok false
        else Ok true
  end.

(** ** merge_cycles *)

(** An element of the list [merged]: an input tuple stored unchanged, or the
    tuple [(start_time, end_time, sample_count, thresh_value, 'M')], whose two
    first components are datetimes and whose fourth is a timedelta. *)
Inductive merged_cycle :=
| Kept (c : Cycle * cycle_type)
| Merged (start_time end_time : Z) (count : Q) (gap : Z) (type : cycle_type).

Definition merge_pair (first second : Cycle * cycle_type) (merge_within : Z)
    : result merged_cycle :=
  m ← can_merge (Single first) second merge_within;
  if (m : bool) then
    let start_time := Stamp (cycle_start (fst first)) in
    let end_time := Stamp (cycle_end (fst second)) in
    let count := (sample_count (fst first) + sample_count (fst second))%Q in
    let gap := Stamp (cycle_start (fst second)) - Stamp (cycle_end (fst first)) in
    Ok (Merged start_time end_time count gap TypeM)
  else Ok (Kept first).

(** The three [while] loops.  [cycles_a] and [cycles_b] are the parts of the
    two lists that the cursors [a] and [b] have not passed; the result is
    [merged[0:m]]. *)
Fixpoint merge_loop (merge_within : Z) (cycles_a cycles_b : list (Cycle * cycle_type))
    {struct cycles_a} : result (list merged_cycle) :=
  match cycles_a with
  | [] => Ok (map Kept cycles_b)
  | first :: rest_a =>
      (fix against_b (cycles_b : list (Cycle * cycle_type)) : result (list merged_cycle) :=
         match cycles_b with
         | [] => Ok (map Kept (first :: rest_a))
         | second :: rest_b =>
             if Stamp (cycle_start (fst first)) <? Stamp (cycle_start (fst second)) then
               x ← merge_pair first second merge_within;
               xs ← merge_loop merge_within rest_a (second :: rest_b);
               Ok (x :: xs)
             else
               x ← merge_pair second first merge_within;
               xs ← against_b rest_b;
               Ok (x :: xs)
         end) cycles_b
  end.

Definition merge_cycles (cycles_a cycles_b : list (Cycle * cycle_type))
    (merge_within : Z) : result (list merged_cycle) :=
  merge_loop merge_within cycles_a cycles_b.

Definition merged_start (c : merged_cycle) : Z :=
  match c with
  | Kept c => Stamp (cycle_start (fst c))
  | Merged s _ _ _ _ => s
  end.

Definition merged_end (c : merged_cycle) : Z :=
  match c with
  | Kept c => Stamp (cycle_end (fst c))
  | Merged _ e _ _ _ => e
  end.

Definition merged_count (c : merged_cycle) : Q :=
  match c with
  | Kept c => sample_count (fst c)
  | Merged _ _ n _ _ => n
  end.

(** ** extract_cycles_curr *)

(** The variables of the loop of [extract_cycles_curr].  [charge_end] is
    [None] again at the end of every iteration and is local to [curr_step]. *)
Record curr_state := {
  cycles : list Cycle;
  discarded_cycles : list Cycle;
  charge_start : option Sample;
  charge_sample_count : Q;
  charge_avg_curr : Q;
  last_sample : option Sample
}.

Definition curr_init : curr_state :=
  {| cycles := []; discarded_cycles := []; charge_start := None;
     charge_sample_count := 0; charge_avg_curr := 0; last_sample := None |}.

Section Current.
Variables charge_thresh_start charge_thresh_end : Q.
Variable min_charge_samples : Q.
Variable min_charge_amount : Q.
Variable max_sample_delay : Z.
Variable min_charge_time : Z.

(** The condition under which a closed cycle is counted. *)
Definition long_enough (charge_start charge_end : Sample) (count : Q) : bool :=
  (min_charge_time <? Stamp charge_end - Stamp charge_start)
  && Qgtb count min_charge_samples
  && Qgtb (soc_smooth charge_end - soc_smooth charge_start) min_charge_amount.

(** [if charge_end: ...] of the current-based extractor. *)
Definition curr_close (st : curr_state) (start : Sample)
    (charge_end : option Sample) (count avg : Q) : curr_state :=
  match charge_end with
  | Some e =>
      let cycle := {| cycle_start := start; cycle_end := e;
                      sample_count := count; thresh_value := avg |} in
      if long_enough start e count then
        {| cycles := cycles st ++ [cycle];
           discarded_cycles := discarded_cycles st;
           charge_start := None; charge_sample_count := 0;
           charge_avg_curr := 0; last_sample := last_sample st |}
      else
        {| cycles := cycles st;
           discarded_cycles := discarded_cycles st ++ [cycle];
           charge_start := None; charge_sample_count := 0;
           charge_avg_curr := 0; last_sample := last_sample st |}
  | None =>
      {| cycles := cycles st; discarded_cycles := discarded_cycles st;
         charge_start := Some start; charge_sample_count := count;
         charge_avg_curr := avg; last_sample := last_sample st |}
  end.

(** The body of the loop, up to [last_sample = sample]. *)
Definition curr_body (st : curr_state) (sample : Sample) : result curr_state :=
  match charge_start st with
  | None =>
      if Qgtb (ChargingCurr sample) charge_thresh_start then
        Ok {| cycles := cycles st; discarded_cycles := discarded_cycles st;
              charge_start := Some sample; charge_sample_count := 1;
              charge_avg_curr := ChargingCurr sample;
              last_sample := last_sample st |}
      else Ok st
  | Some start =>
      if Qltb (ChargingCurr sample) charge_thresh_end then
        Ok (curr_close st start (last_sample st)
                       (charge_sample_count st) (charge_avg_curr st))
      else
        match last_sample st with
        | None => Err TypeError
        | Some last =>
            if max_sample_delay <? Stamp sample - Stamp last then
              Ok (curr_close st start (Some last)
                             (charge_sample_count st) (charge_avg_curr st))
            else
              Ok (curr_close st start None
                             (charge_sample_count st + 1)
                             ((charge_avg_curr st + ChargingCurr sample) / 2))%Q
        end
  end.

Definition curr_step (st : curr_state) (sample : Sample) : result curr_state :=
  st' ← curr_body st sample;
  Ok {| cycles := cycles st'; discarded_cycles := discarded_cycles st';
        charge_start := charge_start st';
        charge_sample_count := charge_sample_count st';
        charge_avg_curr := charge_avg_curr st';
        last_sample := Some sample |}.

Fixpoint curr_loop (st : curr_state) (charge_samples : list Sample)
    : result curr_state :=
  match charge_samples with
  | [] => Ok st
  | sample :: rest => st' ← curr_step st sample; curr_loop st' rest
  end.

Definition extract_cycles_curr (charge_samples : list Sample)
    : result (list Cycle * list Cycle) :=
  st ← curr_loop curr_init charge_samples;
  Ok (cycles st, discarded_cycles st).
End Current.

(** ** extract_cycles_soc *)

(** [collections.deque(maxlen=...)]: appending to a full deque drops the
    oldest element. *)
Definition deque_append (maxlen : nat) (h : list Q) (x : Q) : list Q :=
  let h' := h ++ [x] in drop (length h' - maxlen) h'.

(** [sum(l)] *)
Definition py_sum (l : list Q) : Q := fold_left Qplus l 0%Q.

(** [len(l)] as a number. *)
Definition py_len (l : list Q) : Q := inject_Z (Z.of_nat (length l)).

(** The estimate stored in [sample['soc_diff']]. *)
Definition soc_derivative (maxlen : nat) (soc_history : list Q) : result Q :=
  let l := length soc_history in
  if (maxlen <=? l)%nat then
    let h := soc_history in
    old_avg ← py_div (py_sum (take (l / 2) h)) (py_len (take (l / 2) h));
    new_avg ← py_div (py_sum (drop (l / 2) (take l h)))
                     (py_len (drop (l / 2) (take l h)));
    Ok (new_avg - old_avg)%Q
  else Ok 0%Q.

Record soc_state := {
  soc_cycles : list Cycle;
  soc_discarded_cycles : list Cycle;
  soc_charge_start : option Sample;
  soc_charge_sample_count : Q;
  soc_history : list Q;
  soc_last_sample : option Sample
}.

Definition soc_init : soc_state :=
  {| soc_cycles := []; soc_discarded_cycles := []; soc_charge_start := None;
     soc_charge_sample_count := 0; soc_history := []; soc_last_sample := None |}.

Section StateOfCharge.
Variable derivate_span : nat.
Variables charge_thresh_start charge_thresh_end : Q.
Variable min_charge_samples : Q.
Variable max_sample_delay : Z.
Variable min_charge_time : Z.
Variable min_charge_amount : Q.
Variable merge_within : Z.

(** [if charge_end: ...] of the SoC-based extractor, for a [charge_end]
    that is set: the two lists after the candidate has been merged, counted
    or discarded. *)
Definition soc_close (cycles discarded_cycles : list Cycle)
    (charge_start charge_end : Sample) (charge_sample_count : Q)
    : result (list Cycle * list Cycle) :=
  m ← can_merge (Sequence cycles) (charge_start, charge_end) merge_within;
  if (m : bool) then
    match last cycles with
    | None => Err IndexError
    | Some tail =>
        let charge_amount :=
          (soc_smooth charge_end - soc_smooth (cycle_start tail))%Q in
        Ok (removelast cycles ++
              [ {| cycle_start := cycle_start tail; cycle_end := charge_end;
                   sample_count := thresh_value tail + charge_sample_count;
                   thresh_value := charge_amount |} ],
            discarded_cycles)
    end
  else
    m' ← can_merge (Sequence discarded_cycles) (charge_start, charge_end)
                   merge_within;
    pulled ←
      (if (m' : bool) then
         match last discarded_cycles with
         | None => Err IndexError
         | Some tail =>
             Ok (cycle_start tail,
                 (charge_sample_count + sample_count tail)%Q,
                 removelast discarded_cycles)
         end
       else Ok (charge_start, charge_sample_count, discarded_cycles));
    let '(charge_start, charge_sample_count, discarded_cycles) := pulled in
    let cycle :=
      {| cycle_start := charge_start; cycle_end := charge_end;
         sample_count := charge_sample_count;
         thresh_value := soc_smooth charge_end - soc_smooth charge_start |} in
    if long_enough min_charge_samples min_charge_amount min_charge_time
                   charge_start charge_end charge_sample_count
    then Ok (cycles ++ [cycle], discarded_cycles)
    else Ok (cycles, discarded_cycles ++ [cycle]).

(** The part of the loop body after [soc_diff] has been stored in the
    sample: [sample] is the updated sample, [diff] its [soc_diff]. *)
Definition soc_body (st : soc_state) (history : list Q) (sample : Sample)
    (diff : Q) : result soc_state :=
  let keep start count :=
    Ok {| soc_cycles := soc_cycles st;
          soc_discarded_cycles := soc_discarded_cycles st;
          soc_charge_start := start; soc_charge_sample_count := count;
          soc_history := history; soc_last_sample := Some sample |} in
  let close start charge_end :=
    lists ← soc_close (soc_cycles st) (soc_discarded_cycles st) start
                      charge_end (soc_charge_sample_count st);
    Ok {| soc_cycles := fst lists; soc_discarded_cycles := snd lists;
          soc_charge_start := None; soc_charge_sample_count := 0;
          soc_history := history; soc_last_sample := Some sample |} in
  match soc_charge_start st with
  | None =>
      if Qgtb diff charge_thresh_start then keep (Some sample) 1%Q
      else keep None (soc_charge_sample_count st)
  | Some start =>
      if Qltb diff charge_thresh_end then close start sample
      else
        match soc_last_sample st with
        | None => Err TypeError
        | Some last =>
            if max_sample_delay <? Stamp sample - Stamp last then
              close start last
            else keep (Some start) (soc_charge_sample_count st + 1)%Q
        end
  end.

Definition soc_step (st : soc_state) (sample : Sample) : result soc_state :=
  let history := deque_append derivate_span (soc_history st) (soc_smooth sample) in
  diff ← soc_derivative derivate_span history;
  soc_body st history (set_soc_diff sample diff) diff.

Fixpoint soc_loop (st : soc_state) (charge_samples : list Sample)
    : result soc_state :=
  match charge_samples with
  | [] => Ok st
  | sample :: rest => st' ← soc_step st sample; soc_loop st' rest
  end.

Definition extract_cycles_soc (charge_samples : list Sample)
    : result (list Cycle * list Cycle) :=
  st ← soc_loop soc_init charge_samples;
  Ok (soc_cycles st, soc_discarded_cycles st).
End StateOfCharge.

(** ** Notions of the specification *)

(** The overlap rule: [max(first.start, second.start) <= min(first.end,
    second.end)]. *)
Definition intervals_overlap {L N : Type} `{Interval L} `{Interval N}
    (first : L) (second : N) : Prop :=
  Z.max (Stamp (itv_start first)) (Stamp (itv_start second))
  <= Z.min (Stamp (itv_end first)) (Stamp (itv_end second)).

(** [gap = second.start - first.end] *)
Definition gap_between {L N : Type} `{Interval L} `{Interval N}
    (first : L) (second : N) : Z :=
  Stamp (itv_start second) - Stamp (itv_end first).

(** The duration of an interval. *)
Definition duration {T : Type} `{Interval T} (c : T) : Z :=
  Stamp (itv_end c) - Stamp (itv_start c).

(** An interval list: every cycle starts no later than it ends and strictly
    after the end of the one before. *)
Fixpoint interval_list (l : list (Cycle * cycle_type)) : Prop :=
  match l with
  | [] => True
  | c :: rest =>
      Stamp (itv_start c) <= Stamp (itv_end c)
      /\ match rest with
         | [] => True
         | c' :: _ => Stamp (itv_end c) < Stamp (itv_start c')
         end
      /\ interval_list rest
  end.

(** Non-overlap of an emitted list: [c1.end <= c2.start] for adjacent
    cycles. *)
Definition non_overlapping (l : list merged_cycle) : Prop :=
  forall (i : nat) (c1 c2 : merged_cycle),
    l !! i = Some c1 -> l !! S i = Some c2 -> merged_end c1 <= merged_start c2.

(** Total sample count of a list of inputs and of the merged list. *)
Definition total_count (l : list (Cycle * cycle_type)) : Q :=
  py_sum (map (fun c => sample_count (fst c)) l).

Definition total_merged_count (l : list merged_cycle) : Q :=
  py_sum (map merged_count l).


(** [new] is [old] with the cycle [c] appended, or with its last element
    replaced by [c]. *)
Definition written_last (old new : list Cycle) (c : Cycle) : Prop :=
  new = old ++ [c] \/ new = removelast old ++ [c].

(** The cycle that closing wrote between two states of the current-based
    extractor: it was appended to one of the two lists. *)
Definition curr_closed_with (st st' : curr_state) (c : Cycle) : Prop :=
  (cycles st' = cycles st ++ [c] /\ discarded_cycles st' = discarded_cycles st)
  \/ (cycles st' = cycles st /\ discarded_cycles st' = discarded_cycles st ++ [c]).

(** The cycle that closing wrote between two states of the SoC-based
    extractor: the extended tail of the accepted list, or a new last element
    of the accepted or of the discarded list (after the discarded tail was
    absorbed, or not). *)
Definition soc_closed_with (st st' : soc_state) (c : Cycle) : Prop :=
  (written_last (soc_cycles st) (soc_cycles st') c
   /\ (soc_discarded_cycles st' = soc_discarded_cycles st
       \/ soc_discarded_cycles st' = removelast (soc_discarded_cycles st)))
  \/ (soc_cycles st' = soc_cycles st
      /\ written_last (soc_discarded_cycles st) (soc_discarded_cycles st') c).

(** Close-at-previous-sample as the specification words it for the SoC-based
    extractor: when the derivative of a sample is below [charge_thresh_end]
    during a cycle, the cycle that is closed ends at the sample before. *)
Definition soc_closes_at_previous (charge_thresh_start charge_thresh_end : Q)
    (min_charge_samples : Q) (max_sample_delay min_charge_time : Z)
    (min_charge_amount : Q) (merge_within : Z) (st : soc_state)
    (history : list Q) (sample : Sample) (diff : Q) : Prop :=
  forall (start previous : Sample) (st' : soc_state),
    soc_charge_start st = Some start ->
    soc_last_sample st = Some previous ->
    (diff < charge_thresh_end)%Q ->
    soc_body charge_thresh_start charge_thresh_end min_charge_samples
             max_sample_delay min_charge_time min_charge_amount merge_within
             st history sample diff = Ok st' ->
    exists c : Cycle, soc_closed_with st st' c /\ cycle_end c = previous.

(** Samples in strictly increasing order of their timestamps, all of them
    after [t]. *)
Fixpoint stamps_increase_after (t : Z) (samples : list Sample) : Prop :=
  match samples with
  | [] => True
  | sample :: rest => t < Stamp sample /\ stamps_increase_after (Stamp sample) rest
  end.

Definition stamps_increase (samples : list Sample) : Prop :=
  match samples with
  | [] => True
  | sample :: rest => stamps_increase_after (Stamp sample) rest
  end.

(** What holds of the variables of [extract_cycles_curr] between two
    iterations: an open cycle has a sample before it. *)
Definition curr_invariant (st : curr_state) : Prop :=
  charge_start st = None \/ exists p, last_sample st = Some p.


(** ** Data of the scenarios *)

Definition at_time (t : Z) : Sample :=
  {| Stamp := t; ChargingCurr := 0; soc_smooth := 0; soc_diff := None |}.

(** The interval [(s, e)] with a sample count and a type code. *)
Definition interval (s e : Z) (n : Q) (type : cycle_type) : Cycle * cycle_type :=
  ({| cycle_start := at_time s; cycle_end := at_time e;
      sample_count := n; thresh_value := 0 |}, type).

(** A sample [(t, ChargingCurr)] with its smoothed state of charge. *)
Definition reading (t : Z) (curr soc : Q) : Sample :=
  {| Stamp := t; ChargingCurr := curr; soc_smooth := soc; soc_diff := None |}.

(** The samples [(0,5), (60,5), (120,55), (180,60), (240,5)]. *)
Definition threshold_scenario (soc0 soc1 soc2 soc3 soc4 : Q) : list Sample :=
  [ reading 0 5 soc0; reading 60 5 soc1; reading 120 55 soc2;
    reading 180 60 soc3; reading 240 5 soc4 ].

(** Samples [(t, soc_smooth)] of a state of charge that rises from 10 to 30,
    rests, and rises again from 50 to 70. *)
Definition soc_reading (t : Z) (soc : Q) : Sample := reading t 55 soc.

Definition soc_scenario : list Sample :=
  [ soc_reading 0 0; soc_reading 10 (1 # 4); soc_reading 20 (2 # 4);
    soc_reading 30 (3 # 4); soc_reading 40 (3 # 4); soc_reading 50 (4 # 4);
    soc_reading 60 (5 # 4); soc_reading 70 (6 # 4); soc_reading 80 (6 # 4) ].

(** The state of the SoC-based extractor during the first rise, after the
    sample at 30. *)
Definition soc_charging_state : soc_state :=
  {| soc_cycles := []; soc_discarded_cycles := [];
     soc_charge_start := Some (set_soc_diff (soc_reading 10 (1 # 4)) (1 # 4));
     soc_charge_sample_count := 3;
     soc_history := [2 # 4; 3 # 4];
     soc_last_sample := Some (set_soc_diff (soc_reading 30 (3 # 4)) (4 # 16)) |}.

(** A state of the current-based extractor during a cycle that started at
    120, after the sample at 180. *)
Definition curr_charging_state : curr_state :=
  {| cycles := []; discarded_cycles := [];
     charge_start := Some (reading 120 55 (2 # 10));
     charge_sample_count := 2; charge_avg_curr := 115 # 2;
     last_sample := Some (reading 180 60 (9 # 10)) |}.

(** ** daterange *)

(** [daterange] is a generator; [start], [stop] are datetimes and [step] a
    timedelta.  [cmp] and [inc] are the two lambdas, chosen once by
    [start < stop].  The overflow of [inc] past the last or the first
    datetime that Python represents is not modelled: the values below lie
    between [start] and [stop], or the step is zero. *)
Definition daterange_cmp (ascending : bool) (a b : Z) : bool :=
  if ascending then a <? b else b <? a.

Definition daterange_inc (ascending : bool) (step a : Z) : Z :=
  if ascending then a + step else a - step.

(** The [while] loop, entered with the value of [start] after [inc]: the
    values that the next [n] calls of [next] yield; the list is shorter than
    [n] when the generator is exhausted before. *)
Fixpoint daterange_loop (n : nat) (ascending : bool) (start stop step : Z)
    : list Z :=
  match n with
  | O => []
  | S n' =>
      if daterange_cmp ascending start stop then
        start :: daterange_loop n' ascending (daterange_inc ascending step start)
                                stop step
      else []
  end.

(** The values that the first [n] calls of [next] yield. *)
Definition daterange (n : nat) (start stop step : Z) : list Z :=
  match n with
  | O => []
  | S n' =>
      let ascending := start <? stop in
      start :: daterange_loop n' ascending (daterange_inc ascending step start)
                              stop step
  end.

(** ** discharge_curr_to_ampere *)

(** [(val - 504) * 0.033 if val else 0]; a datetime minus an int raises. *)
Definition discharge_curr_to_ampere (val : Smooth.pyval) : result Q :=
  if Smooth.truthy val then
    match val with
    | Smooth.VNum v => Ok ((v - 504) * (33 # 1000))%Q
    | _ => Err TypeError
    end
  else Ok 0%Q.

(** ** preprocess_cycles *)

(** A timedelta of [n] minutes; the timestamps of the rows are in seconds. *)
Definition minutes (n : Z) : Z := 60 * n.

(** [[(s, e, x, y, 'A') for (s, e, x, y) in cycles]] *)
Definition tag_cycles (type : cycle_type) (l : list Cycle)
    : list (Cycle * cycle_type) :=
  map (fun c => (c, type)) l.

(** The values of one [INSERT INTO webike_sfink.charge_cycles], without the
    constant [imei]. *)
Record charge_cycle_row := {
  row_start_time : Z;
  row_end_time : Z;
  row_sample_count : Q;
  row_avg_thresh_val : Q;
  row_type : cycle_type
}.

(** [[imei, cycle[0]['Stamp'], cycle[1]['Stamp'], cycle[2], cycle[3],
    cycle[4]]]: the first component of a merged tuple is a datetime, and a
    datetime has no items. *)
Definition insert_values (cycle : merged_cycle) : result charge_cycle_row :=
  match cycle with
  | Kept c =>
      Ok {| row_start_time := Stamp (cycle_start (fst c));
            row_end_time := Stamp (cycle_end (fst c));
            row_sample_count := sample_count (fst c);
            row_avg_thresh_val := thresh_value (fst c);
            row_type := snd c |}
  | Merged _ _ _ _ _ => Err TypeError
  end.

(** The last [for] loop when it runs to its end: the rows given to
    [cursor.execute], in order; the exception of the first cycle whose values
    raise otherwise. *)
Fixpoint insert_cycles (l : list merged_cycle) : result (list charge_cycle_row) :=
  match l with
  | [] => Ok []
  | cycle :: rest =>
      row ← insert_values cycle;
      rows ← insert_cycles rest;
      Ok (row :: rows)
  end.

(** [preprocess_cycles] from the four lists of the extractors on: tagging,
    merging and writing. *)
Definition write_cycles (cycles_curr cycles_curr_disc cycles_soc cycles_soc_disc
                         : list Cycle) : result (list charge_cycle_row) :=
  let cycles_curr := tag_cycles TypeA cycles_curr in
  let cycles_curr_disc := tag_cycles TypeB cycles_curr_disc in
  let cycles_soc := tag_cycles TypeS cycles_soc in
  let cycles_soc_disc := tag_cycles TypeT cycles_soc_disc in
  cycles_merged ← merge_cycles cycles_curr cycles_soc (minutes 30);
  insert_cycles (cycles_merged ++ map Kept cycles_curr_disc
                               ++ map Kept cycles_soc_disc).

(** The rows that the last [for] loop has given to [cursor.execute] when it
    ends, at the end of the list or by an exception: the rows of the cycles
    before the first one whose values raise. *)
Fixpoint executed_rows (l : list merged_cycle) : list charge_cycle_row :=
  match l with
  | [] => []
  | cycle :: rest =>
      match insert_values cycle with
      | Ok row => row :: executed_rows rest
      | Err _ => []
      end
  end.

(** The rows that [write_cycles] has given to [cursor.execute] when it ends;
    there is none when the merger raises, which comes before the loop. *)
Definition write_cycles_executed (cycles_curr cycles_curr_disc cycles_soc
                                  cycles_soc_disc : list Cycle)
    : list charge_cycle_row :=
  let cycles_curr := tag_cycles TypeA cycles_curr in
  let cycles_curr_disc := tag_cycles TypeB cycles_curr_disc in
  let cycles_soc := tag_cycles TypeS cycles_soc in
  let cycles_soc_disc := tag_cycles TypeT cycles_soc_disc in
  match merge_cycles cycles_curr cycles_soc (minutes 30) with
  | Ok cycles_merged =>
      executed_rows (cycles_merged ++ map Kept cycles_curr_disc
                                   ++ map Kept cycles_soc_disc)
  | Err _ => []
  end.

(** [preprocess_cycles] on the rows [charge] that the query returns, with
    the default parameters of the two extractors.  The result is the list of
    the rows written. *)
Definition preprocess_cycles (charge : list Sample)
    : result (list charge_cycle_row) :=
  curr ← extract_cycles_curr 50 50 100 (5 # 100) (minutes 10) (minutes 10) charge;
  soc ← extract_cycles_soc 10 (1 # 1000) (1 # 1000) 100 (minutes 10) (minutes 30)
                           (5 # 100) (minutes 30) charge;
  write_cycles (fst curr) (snd curr) (fst soc) (snd soc).

(** ** Notions for the further properties *)

(** A merged tuple, as opposed to an input tuple stored unchanged. *)
Definition is_merged (c : merged_cycle) : bool :=
  match c with
  | Kept _ => false
  | Merged _ _ _ _ _ => true
  end.

(** Cycles in order: each starts no later than it ends and strictly after
    the end of the one before. *)
Fixpoint cycles_ordered (l : list Cycle) : Prop :=
  match l with
  | [] => True
  | c :: rest =>
      Stamp (cycle_start c) <= Stamp (cycle_end c)
      /\ match rest with
         | [] => True
         | c' :: _ => Stamp (cycle_end c) < Stamp (cycle_start c')
         end
      /\ cycles_ordered rest
  end.

(** Timestamps in non-decreasing order. *)
Fixpoint nondecreasing (l : list Z) : Prop :=
  match l with
  | [] => True
  | t :: rest =>
      match rest with
      | [] => True
      | t' :: _ => t <= t'
      end
      /\ nondecreasing rest
  end.

(** No sample comes more than [delay] after the sample before it; the first
    one is compared with the time [t]. *)
Fixpoint gaps_within_after (delay t : Z) (samples : list Sample) : Prop :=
  match samples with
  | [] => True
  | sample :: rest =>
      Stamp sample - t <= delay /\ gaps_within_after delay (Stamp sample) rest
  end.

Definition gaps_within (delay : Z) (samples : list Sample) : Prop :=
  match samples with
  | [] => True
  | sample :: rest => gaps_within_after delay (Stamp sample) rest
  end.

(** The three conditions under which a closed cycle is counted, and the
    condition under which it was opened by the current-based extractor. *)
Definition counted (min_charge_samples min_charge_amount : Q)
    (min_charge_time : Z) (c : Cycle) : Prop :=
  min_charge_time < Stamp (cycle_end c) - Stamp (cycle_start c)
  /\ (min_charge_samples < sample_count c)%Q
  /\ (min_charge_amount < soc_smooth (cycle_end c) - soc_smooth (cycle_start c))%Q.

Definition opened_above (charge_thresh_start : Q) (c : Cycle) : Prop :=
  (charge_thresh_start < ChargingCurr (cycle_start c))%Q.

(** What holds of the variables of [extract_cycles_curr] between two
    iterations on samples whose timestamps strictly increase, [t] being the
    timestamp of the last sample read: the two lists are in order and end no
    later than [t], and an open cycle starts after all of them and no later
    than the last sample. *)
Definition curr_ordered (t : Z) (st : curr_state) : Prop :=
  cycles_ordered (cycles st)
  /\ cycles_ordered (discarded_cycles st)
  /\ (forall c, c ∈ cycles st ++ discarded_cycles st -> Stamp (cycle_end c) <= t)
  /\ (forall p, last_sample st = Some p -> Stamp p <= t)
  /\ (forall s, charge_start st = Some s ->
        (exists p, last_sample st = Some p /\ Stamp s <= Stamp p)
        /\ forall c, c ∈ cycles st ++ discarded_cycles st ->
                     Stamp (cycle_end c) < Stamp s).

(** The number of iterations that the cycles closed so far, and the one that
    is open, have taken at least. *)
Definition curr_spent (st : curr_state) : nat :=
  2 * (length (cycles st) + length (discarded_cycles st))
  + match charge_start st with Some _ => 1 | None => 0 end.

(** The [n] most recent values of a list, oldest first. *)
Definition last_values (n : nat) (l : list Q) : list Q :=
  drop (length l - n) l.

(** * Properties *)

Lemma Qltb_lt a b : Qltb a b = true <-> (a < b)%Q.
Proof.
  unfold Qltb. rewrite negb_true_iff. split.
  - intros H. apply Qnot_le_lt. intros Hle.
    apply Qle_bool_iff in Hle. congruence.
  - intros H. destruct (Qle_bool b a) eqn:E; [|done].
    apply Qle_bool_iff in E. exfalso. eapply Qlt_not_le; eauto.
Qed.

Lemma Qltb_ge a b : Qltb a b = false <-> ~ (a < b)%Q.
Proof. rewrite <- Qltb_lt. by destruct (Qltb a b). Qed.

(** ** The merge predicate *)

Section CanMerge.
Context {L N : Type} `{Interval L} `{Interval N}.
Implicit Types (first : L) (second : N).

Lemma can_merge_overlap first second merge_within :
  intervals_overlap first second ->
  can_merge (Single first) second merge_within = Ok true.
Proof.
  unfold intervals_overlap, can_merge. intros Hov.
  apply Z.leb_le in Hov. cbn. by rewrite Hov.
Qed.

Lemma can_merge_gap first second merge_within :
  ~ intervals_overlap first second ->
  0 < gap_between first second ->
  can_merge (Single first) second merge_within
  = Ok (bool_decide (gap_between first second <= merge_within
                     /\ gap_between first second <= duration second
                     /\ gap_between first second <= duration first)).
Proof.
  unfold intervals_overlap, gap_between, duration, can_merge.
  intros Hov Hgap. cbn.
  destruct (Z.leb_spec (Z.max (Stamp (itv_start first)) (Stamp (itv_start second)))
              (Z.min (Stamp (itv_end first)) (Stamp (itv_end second)))); [lia|].
  destruct (Z.ltb_spec 0 (Stamp (itv_start second) - Stamp (itv_end first)));
    [cbn|lia].
  repeat match goal with
         | |- context [?a <? ?b] => destruct (Z.ltb_spec a b)
         end;
    f_equal; symmetry;
    first [ apply bool_decide_eq_true; lia | apply bool_decide_eq_false; lia ].
Qed.

Lemma can_merge_ordering_violation first second merge_within :
  ~ intervals_overlap first second ->
  ~ 0 < gap_between first second ->
  can_merge (Single first) second merge_within = Err AssertionError.
Proof.
  unfold intervals_overlap, gap_between, can_merge.
  intros Hov Hgap. cbn.
  destruct (Z.leb_spec (Z.max (Stamp (itv_start first)) (Stamp (itv_start second)))
              (Z.min (Stamp (itv_end first)) (Stamp (itv_end second)))); [lia|].
  destruct (Z.ltb_spec 0 (Stamp (itv_start second) - Stamp (itv_end first)));
    [lia|done].
Qed.

(** C8.  For every pair of intervals given to [can_merge]: when they
    overlap the result is true; when they do not and the gap
    [second.start - first.end] is strictly positive, the result is true
    exactly when the gap is at most [merge_within] and at most the duration
    of each of the two intervals; when they do not overlap and the gap is
    not strictly positive, the call fails with an assertion error and
    returns nothing. *)
Theorem can_merge_predicate first second merge_within :
  (intervals_overlap first second ->
   can_merge (Single first) second merge_within = Ok true)
  /\ (~ intervals_overlap first second -> 0 < gap_between first second ->
      exists b : bool,
        can_merge (Single first) second merge_within = Ok b
        /\ (b = true <->
            gap_between first second <= merge_within
            /\ gap_between first second <= duration first
            /\ gap_between first second <= duration second))
  /\ (~ intervals_overlap first second -> ~ 0 < gap_between first second ->
      can_merge (Single first) second merge_within = Err AssertionError).
Proof.
  split; [apply can_merge_overlap|].
  split; [|apply can_merge_ordering_violation].
  intros Hov Hgap. eexists. split; [by apply can_merge_gap|].
  rewrite bool_decide_eq_true. lia.
Qed.
End CanMerge.

(** The three cases of C8 at [(10,20)] against [(15,30)], [(25,40)] and
    [(5,8)]. *)
Lemma can_merge_predicate_witness :
  can_merge (Single (interval 10 20 1 TypeA)) (interval 15 30 1 TypeS) 10 = Ok true
  /\ (exists b : bool,
        can_merge (Single (interval 10 20 1 TypeA)) (interval 25 40 1 TypeS) 10 = Ok b
        /\ (b = true <->
            gap_between (interval 10 20 1 TypeA) (interval 25 40 1 TypeS) <= 10
            /\ gap_between (interval 10 20 1 TypeA) (interval 25 40 1 TypeS)
               <= duration (interval 10 20 1 TypeA)
            /\ gap_between (interval 10 20 1 TypeA) (interval 25 40 1 TypeS)
               <= duration (interval 25 40 1 TypeS)))
  /\ can_merge (Single (interval 10 20 1 TypeA)) (interval 5 8 1 TypeS) 10
     = Err AssertionError.
Proof.
  split; [|split].
  - apply (can_merge_predicate (interval 10 20 1 TypeA) (interval 15 30 1 TypeS) 10).
    unfold intervals_overlap; cbn; lia.
  - apply (can_merge_predicate (interval 10 20 1 TypeA) (interval 25 40 1 TypeS) 10).
    + unfold intervals_overlap; cbn; lia.
    + unfold gap_between; cbn; lia.
  - apply (can_merge_predicate (interval 10 20 1 TypeA) (interval 5 8 1 TypeS) 10).
    + unfold intervals_overlap; cbn; lia.
    + unfold gap_between; cbn; lia.
Defined.

(** ** The interval merger *)

Lemma merge_pair_ok first second merge_within x :
  merge_pair first second merge_within = Ok x ->
  x = Kept first
  \/ x = Merged (Stamp (cycle_start (fst first))) (Stamp (cycle_end (fst second)))
                (sample_count (fst first) + sample_count (fst second))%Q
                (Stamp (cycle_start (fst second)) - Stamp (cycle_end (fst first)))
                TypeM.
Proof.
  unfold merge_pair.
  destruct (can_merge (Single first) second merge_within) as [[|]|e]; cbn;
    intros [= <-]; auto.
Qed.

Lemma merge_loop_nil_r merge_within cycles_a :
  merge_loop merge_within cycles_a [] = Ok (map Kept cycles_a).
Proof. by destruct cycles_a. Qed.

Lemma merge_loop_cons merge_within first rest_a second rest_b :
  merge_loop merge_within (first :: rest_a) (second :: rest_b)
  = if Stamp (cycle_start (fst first)) <? Stamp (cycle_start (fst second)) then
      x ← merge_pair first second merge_within;
      xs ← merge_loop merge_within rest_a (second :: rest_b);
      Ok (x :: xs)
    else
      x ← merge_pair second first merge_within;
      xs ← merge_loop merge_within (first :: rest_a) rest_b;
      Ok (x :: xs).
Proof. reflexivity. Qed.

(** Case analysis on the computation at the head of a bind. *)
Ltac bind_case x E :=
  match goal with
  | |- context [mbind _ ?r] =>
      lazymatch r with
      | context [mbind] => fail
      | _ => destruct r as [x|] eqn:E; unfold mbind at 1, result_bind at 1;
             cbv beta iota; [|try discriminate]
      end
  end.

(** Every step of the first loop passes one cursor and stores one element:
    the merged list is as long as the two inputs together, whether cycles
    were merged or not. *)
Lemma merge_cycles_length cycles_a cycles_b merge_within merged :
  merge_cycles cycles_a cycles_b merge_within = Ok merged ->
  length merged = (length cycles_a + length cycles_b)%nat.
Proof.
  unfold merge_cycles. revert cycles_b merged.
  induction cycles_a as [|first rest_a IHa]; intros cycles_b merged.
  - cbn. intros [= <-]. by rewrite length_map.
  - induction cycles_b as [|second rest_b IHb] in merged |- *.
    + rewrite merge_loop_nil_r. intros [= <-]. cbn. rewrite length_map. lia.
    + rewrite merge_loop_cons.
      destruct (Stamp (cycle_start (fst first)) <? Stamp (cycle_start (fst second))).
      * bind_case x Ex. bind_case xs Exs.
        intros [= <-]. cbn. rewrite (IHa _ _ Exs). cbn. lia.
      * bind_case x Ex. bind_case xs Exs.
        intros [= <-]. cbn. rewrite (IHb _ eq_refl). cbn. lia.
Qed.

Lemma can_merge_returns {L N : Type} `{Interval L} `{Interval N}
    (first : L) (second : N) merge_within :
  Stamp (itv_start first) <= Stamp (itv_start second) ->
  Stamp (itv_start second) <= Stamp (itv_end second) ->
  exists b : bool, can_merge (Single first) second merge_within = Ok b.
Proof.
  intros Hfirst Hsecond. unfold can_merge. cbn.
  destruct (Z.leb_spec (Z.max (Stamp (itv_start first)) (Stamp (itv_start second)))
              (Z.min (Stamp (itv_end first)) (Stamp (itv_end second))));
    [by eauto|].
  destruct (Z.ltb_spec 0 (Stamp (itv_start second) - Stamp (itv_end first)));
    [|lia].
  cbn. repeat destruct (_ <? _); eauto.
Qed.

Lemma merge_pair_returns first second merge_within :
  Stamp (cycle_start (fst first)) <= Stamp (cycle_start (fst second)) ->
  Stamp (cycle_start (fst second)) <= Stamp (cycle_end (fst second)) ->
  exists x, merge_pair first second merge_within = Ok x.
Proof.
  intros Hfirst Hsecond. unfold merge_pair.
  destruct (can_merge_returns first second merge_within) as [b ->];
    [exact Hfirst | exact Hsecond |].
  cbn. destruct b; eauto.
Qed.

Lemma merge_loop_returns merge_within cycles_a cycles_b :
  Forall (fun c => Stamp (cycle_start (fst c)) <= Stamp (cycle_end (fst c))) cycles_a ->
  Forall (fun c => Stamp (cycle_start (fst c)) <= Stamp (cycle_end (fst c))) cycles_b ->
  exists merged, merge_loop merge_within cycles_a cycles_b = Ok merged.
Proof.
  revert cycles_b.
  induction cycles_a as [|first rest_a IHa]; intros cycles_b Ha Hb; [by eexists|].
  apply Forall_cons in Ha as [Hfirst Ha].
  induction cycles_b as [|second rest_b IHb].
  - rewrite merge_loop_nil_r. by eexists.
  - pose proof Hb as Hb'. apply Forall_cons in Hb' as [Hsecond Hrest].
    rewrite merge_loop_cons.
    destruct (Z.ltb_spec (Stamp (cycle_start (fst first)))
                (Stamp (cycle_start (fst second)))) as [Hlt|Hge].
    + destruct (merge_pair_returns first second merge_within) as [x ->];
        [lia|done|].
      destruct (IHa (second :: rest_b) Ha Hb) as [xs ->]. cbn. by eexists.
    + destruct (merge_pair_returns second first merge_within) as [x ->];
        [lia|done|].
      destruct (IHb Hrest) as [xs ->]. cbn. by eexists.
Qed.

(** X19.  On cycles that start no later than they end, no assertion of
    [can_merge] fails in [merge_cycles]: the cycle that starts first is
    always the first argument. *)
Lemma merge_cycles_returns cycles_a cycles_b merge_within :
  Forall (fun c => Stamp (cycle_start (fst c)) <= Stamp (cycle_end (fst c))) cycles_a ->
  Forall (fun c => Stamp (cycle_start (fst c)) <= Stamp (cycle_end (fst c))) cycles_b ->
  exists merged, merge_cycles cycles_a cycles_b merge_within = Ok merged.
Proof. unfold merge_cycles. apply merge_loop_returns. Qed.

(** C3.  The two runs of the scenario, for any sample counts [n1] and [n2]
    of the two cycles.  With [merge_within = 10] the merged list has two
    elements: the merged cycle [(10, 40)] and, after it, the cycle [(25, 40)]
    once more, which the last loop copies because the cursor of the second
    list was not advanced.  With [merge_within = 2] the two cycles are
    returned unchanged. *)
Theorem merge_scenario_keeps_second (n1 n2 : Q) :
  merge_cycles [interval 10 20 n1 TypeA] [interval 25 40 n2 TypeS] 10
  = Ok [Merged 10 40 (n1 + n2)%Q 5 TypeM; Kept (interval 25 40 n2 TypeS)]
  /\ merge_cycles [interval 10 20 n1 TypeA] [interval 25 40 n2 TypeS] 2
     = Ok [Kept (interval 10 20 n1 TypeA); Kept (interval 25 40 n2 TypeS)].
Proof. split; reflexivity. Qed.

(** C1.  On two one-element interval lists with 3 and 4 samples whose cycles
    are merged, the second cycle is both absorbed in the merged cycle and
    emitted on its own, and the emitted sample counts add up to 11, not to
    the 7 samples of the inputs. *)
Theorem merge_counts_second_twice :
  interval_list [interval 10 20 3 TypeA]
  /\ interval_list [interval 25 40 4 TypeS]
  /\ exists merged,
      merge_cycles [interval 10 20 3 TypeA] [interval 25 40 4 TypeS] 10 = Ok merged
      /\ merged = [Merged 10 40 (3 + 4)%Q 5 TypeM; Kept (interval 25 40 4 TypeS)]
      /\ (total_merged_count merged == 11)%Q
      /\ (total_count [interval 10 20 3 TypeA] + total_count [interval 25 40 4 TypeS]
          == 7)%Q.
Proof.
  repeat split; try (cbn; lia).
  eexists. split; [reflexivity|]. repeat split; reflexivity.
Qed.

(** C2.  On the same two interval lists the merged list is not
    non-overlapping: the merged cycle ends at 40, the next cycle starts at
    25. *)
Theorem merge_output_overlaps :
  interval_list [interval 10 20 3 TypeA]
  /\ interval_list [interval 25 40 4 TypeS]
  /\ exists merged,
      merge_cycles [interval 10 20 3 TypeA] [interval 25 40 4 TypeS] 10 = Ok merged
      /\ ~ non_overlapping merged.
Proof.
  repeat split; try (cbn; lia).
  eexists. split; [reflexivity|].
  intros Hno. specialize (Hno 0%nat _ _ eq_refl eq_refl). cbn in Hno. lia.
Qed.

(** ** The current-based extractor *)

(** C4, as the specification states it, does not hold: with the default
    [max_sample_delay] of 600 s and [min_charge_amount] of 0.05, and a state of
    charge that rises from 0.2 to 0.9 during the cycle, no accepted list of
    the form [[c]] comes out. *)
Lemma threshold_scenario_not_accepted :
  ~ exists (c : Cycle) (discarded : list Cycle),
      extract_cycles_curr 50 50 1 (1 # 20) 600 60
        (threshold_scenario (1 # 10) (1 # 10) (2 # 10) (9 # 10) (9 # 10))
      = Ok ([c], discarded)
      /\ Stamp (cycle_start c) = 120
      /\ Stamp (cycle_end c) = 180
      /\ (sample_count c == 2)%Q.
Proof. intros (c & discarded & Hrun & _). vm_compute in Hrun. discriminate. Qed.

(** C4, amended.  On the samples of the scenario, with
    [start_threshold = stop_threshold = 50], [min_charge_time = 60],
    [min_charge_samples = 1] and [max_sample_delay = 600], whatever the state
    of charge of the samples and whatever [min_charge_amount]: no cycle is
    accepted, and exactly one cycle is discarded; it spans 120..180, has
    [sample_count = 2] and the running average 115/2.  Its duration of 60 is
    not greater than [min_charge_time]. *)
Theorem threshold_scenario_discarded (soc0 soc1 soc2 soc3 soc4 min_charge_amount : Q) :
  extract_cycles_curr 50 50 1 min_charge_amount 600 60
    (threshold_scenario soc0 soc1 soc2 soc3 soc4)
  = Ok ([],
        [ {| cycle_start := reading 120 55 soc2;
             cycle_end := reading 180 60 soc3;
             sample_count := 2;
             thresh_value := 115 # 2 |} ]).
Proof. reflexivity. Qed.

(** With a [min_charge_time] of 59 and a sufficient rise of the state of
    charge the same cycle is accepted. *)
Lemma threshold_scenario_accepted_below_60 :
  extract_cycles_curr 50 50 1 (1 # 20) 600 59
    (threshold_scenario (1 # 10) (1 # 10) (2 # 10) (9 # 10) (9 # 10))
  = Ok ([ {| cycle_start := reading 120 55 (2 # 10);
             cycle_end := reading 180 60 (9 # 10);
             sample_count := 2;
             thresh_value := 115 # 2 |} ],
        []).
Proof. reflexivity. Qed.

(** ** The smoother *)

Module SmoothFacts.
Import Smooth.

Lemma dict_truthy_insert (d : gmap string pyval) key v :
  dict_truthy (<[key := v]> d) = true.
Proof.
  unfold dict_truthy. apply negb_true_iff, Nat.eqb_neq.
  rewrite map_size_empty_iff. apply insert_non_empty.
Qed.

Lemma dict_truthy_lookup (d : gmap string pyval) key v :
  d !! key = Some v -> dict_truthy d = true.
Proof.
  intros Hk. unfold dict_truthy. apply negb_true_iff, Nat.eqb_neq.
  rewrite map_size_empty_iff. intros ->. by rewrite lookup_empty in Hk.
Qed.

Lemma truthy_num q : truthy (VNum q) = true <-> ~ (q == 0)%Q.
Proof.
  cbn. rewrite negb_true_iff. split.
  - intros Hb Hq. apply Qeq_bool_iff in Hq. congruence.
  - intros Hq. destruct (Qeq_bool q 0) eqn:E; [|done].
    apply Qeq_bool_iff in E. contradiction.
Qed.

Lemma available_absent_or_falsy (d : gmap string pyval) key :
  absent_or_falsy (d !! key) -> available (Some d) key = false.
Proof.
  unfold available. intros [-> | [-> | (q & -> & Hq)]].
  - apply andb_false_r.
  - apply andb_false_r.
  - cbn. apply Qeq_bool_iff in Hq. rewrite Hq. apply andb_false_r.
Qed.

Lemma available_num (d : gmap string pyval) key q :
  d !! key = Some (VNum q) -> ~ (q == 0)%Q -> available (Some d) key = true.
Proof.
  intros Hk Hq. unfold available. rewrite (dict_truthy_lookup _ _ _ Hk), Hk.
  by apply truthy_num.
Qed.

Section Step.
Variable alpha : Q.
Variable default_value : pyval.
Variables label label_smooth : string.

Lemma smooth_value_falsy last (sample : gmap string pyval) :
  absent_or_falsy (sample !! label) ->
  smooth_value alpha default_value label label_smooth last sample
  = Ok (if available last label_smooth then item last label_smooth
        else default_value).
Proof.
  intros Hraw. unfold smooth_value.
  rewrite (available_absent_or_falsy _ _ Hraw). cbn.
  by destruct (available last label_smooth).
Qed.




End Step.

(** The smoothed value is a raw value only when the sample before has no
    true smoothed value. *)
Lemma smooth_value_first alpha default_value label label_smooth last
    (sample : gmap string pyval) (r : Q) :
  available last label_smooth = false ->
  sample !! label = Some (VNum r) -> ~ (r == 0)%Q ->
  smooth_value alpha default_value label label_smooth last sample = Ok (VNum r).
Proof.
  intros Hlast Hr Hr0. unfold smooth_value.
  rewrite (available_num _ _ _ Hr Hr0), Hlast. cbn. by rewrite Hr.
Qed.



(** The run behind the two lemmas on C5: the second smoothed value is
    60/4 = 15. *)
Lemma smooth_gap_example :
  smoothed_values "v_smooth"
    (smooth [row 0 (VNum 10); row 1000 (VNum 20)] "v" None (1 # 2) VNone)
  = Ok [Some (VNum 10); Some (VNum (60 # 4))].
Proof. vm_compute. reflexivity. Qed.

(** A smoothed value of exactly zero counts as no value, like a raw value of
    zero: after the smoothed values 1 and 0, a zero raw value gets the
    default. *)
Lemma smooth_zero_history_example :
  smoothed_values "v_smooth"
    (smooth [row 0 (VNum 1); row 10 (VNum (-1)); row 20 (VNum 0)] "v" None
            (1 # 2) VNone)
  = Ok [Some (VNum 1); Some (VNum (0 # 4)); Some VNone].
Proof. vm_compute. reflexivity. Qed.



End SmoothFacts.

(** ** The derivative window of the SoC-based extractor *)

Lemma length_deque_append maxlen h x :
  length (deque_append maxlen h x) = Nat.min (S (length h)) maxlen.
Proof.
  unfold deque_append. rewrite length_drop, length_app. cbn [length]. lia.
Qed.


Lemma soc_derivative_filling maxlen (window : list Q) :
  (length window < maxlen)%nat -> soc_derivative maxlen window = Ok 0%Q.
Proof.
  intros Hlen. unfold soc_derivative.
  destruct (Nat.leb_spec maxlen (length window)); [lia|done].
Qed.




Section SocNoZeroDivision.
Variable derivate_span : nat.
Variables charge_thresh_start charge_thresh_end : Q.
Variable min_charge_samples : Q.
Variable max_sample_delay : Z.
Variable min_charge_time : Z.
Variable min_charge_amount : Q.
Variable merge_within : Z.



Hypothesis span_two : (2 <= derivate_span)%nat.



End SocNoZeroDivision.




(** ** Where a closed cycle ends *)

Lemma can_merge_sequence_returns (l : list Cycle) (charge_start charge_end : Sample)
    merge_within :
  (forall tail, last l = Some tail -> Stamp (cycle_end tail) < Stamp charge_start) ->
  exists b : bool,
    can_merge (Sequence l) (charge_start, charge_end) merge_within = Ok b
    /\ (b = true -> exists tail, last l = Some tail).
Proof.
  intros Hord. unfold can_merge.
  destruct (last l) as [tail|]; [|by exists false].
  specialize (Hord tail eq_refl). cbn.
  destruct (_ <=? _); [by eauto|].
  destruct (Z.ltb_spec 0 (Stamp charge_start - Stamp (cycle_end tail))); [|lia].
  cbn. repeat destruct (_ <? _); eauto.
Qed.

(** Finds which of the two lists received the closed cycle, and how. *)
Ltac pick_written :=
  let side := first [left; reflexivity | right; reflexivity] in
  first [ left; split; [side | side] | right; split; [reflexivity | side] ].

Section CloseSample.
Variables charge_thresh_start charge_thresh_end : Q.
Variable min_charge_samples : Q.
Variable min_charge_amount : Q.
Variable max_sample_delay : Z.
Variable min_charge_time : Z.
Variable merge_within : Z.

Lemma curr_close_written st start previous count avg :
  exists c,
    curr_closed_with st
      (curr_close min_charge_samples min_charge_amount min_charge_time
                  st start (Some previous) count avg) c
    /\ cycle_start c = start /\ cycle_end c = previous.
Proof.
  unfold curr_close, curr_closed_with.
  destruct (long_enough _ _ _ _ _ _); eexists; cbn; eauto.
Qed.

Lemma soc_close_written cycles discarded_cycles start charge_end count lists :
  soc_close min_charge_samples min_charge_time min_charge_amount merge_within
            cycles discarded_cycles start charge_end count = Ok lists ->
  exists c,
    ((written_last cycles (fst lists) c
      /\ (snd lists = discarded_cycles
          \/ snd lists = removelast discarded_cycles))
     \/ (fst lists = cycles /\ written_last discarded_cycles (snd lists) c))
    /\ cycle_end c = charge_end.
Proof.
  unfold soc_close, written_last.
  bind_case m Em. destruct m.
  - destruct (last cycles) as [tail|]; [|done].
    intros [= <-]. eexists. cbn. split; [pick_written|reflexivity].
  - bind_case m' Em'. destruct m'.
    + destruct (last discarded_cycles) as [tail|]; cbn; [|done].
      destruct (long_enough _ _ _ _ _ _); intros [= <-]; eexists; cbn;
        (split; [pick_written|reflexivity]).
    + cbn.
      destruct (long_enough _ _ _ _ _ _); intros [= <-]; eexists; cbn;
        (split; [pick_written|reflexivity]).
Qed.

Lemma soc_close_returns cycles discarded_cycles start charge_end count :
  (forall tail, last cycles = Some tail -> Stamp (cycle_end tail) < Stamp start) ->
  (forall tail, last discarded_cycles = Some tail ->
                Stamp (cycle_end tail) < Stamp start) ->
  exists lists,
    soc_close min_charge_samples min_charge_time min_charge_amount merge_within
              cycles discarded_cycles start charge_end count = Ok lists.
Proof.
  intros Hc Hd. unfold soc_close.
  destruct (can_merge_sequence_returns cycles start charge_end merge_within Hc)
    as (m & -> & Hm).
  destruct (can_merge_sequence_returns discarded_cycles start charge_end
              merge_within Hd) as (m' & Em' & Hm').
  cbn. destruct m.
  - destruct (Hm eq_refl) as [tail ->]. eauto.
  - rewrite Em'. cbn. destruct m'.
    + destruct (Hm' eq_refl) as [tail ->]. cbn.
      destruct (long_enough _ _ _ _ _ _); eauto.
    + cbn. destruct (long_enough _ _ _ _ _ _); eauto.
Qed.

Lemma soc_closing_step st history sample start charge_end :
  (forall tail, last (soc_cycles st) = Some tail ->
                Stamp (cycle_end tail) < Stamp start) ->
  (forall tail, last (soc_discarded_cycles st) = Some tail ->
                Stamp (cycle_end tail) < Stamp start) ->
  exists st' c,
    (lists ← soc_close min_charge_samples min_charge_time min_charge_amount
                       merge_within (soc_cycles st) (soc_discarded_cycles st)
                       start charge_end (soc_charge_sample_count st);
     Ok {| soc_cycles := fst lists; soc_discarded_cycles := snd lists;
           soc_charge_start := None; soc_charge_sample_count := 0;
           soc_history := history; soc_last_sample := Some sample |}) = Ok st'
    /\ soc_closed_with st st' c /\ cycle_end c = charge_end.
Proof.
  intros Hc Hd.
  destruct (soc_close_returns _ _ _ charge_end (soc_charge_sample_count st) Hc Hd)
    as [lists Hlists].
  destruct (soc_close_written _ _ _ _ _ _ Hlists) as (c & Hw & Hend).
  rewrite Hlists. cbn. eexists _, c. split; [reflexivity|].
  split; [|done]. unfold soc_closed_with. cbn. tauto.
Qed.

(** C6, amended.  In the current-based extractor a cycle that closes because
    the current is below [charge_thresh_end], or because the sample comes
    more than [max_sample_delay] after the one before, ends at the sample
    before.  In the SoC-based extractor, for a cycle that starts after the
    ends of the last accepted and the last discarded cycle: when it closes
    because the derivative of the sample is below [charge_thresh_end], it
    ends at that sample itself; when it closes because the sample comes more
    than [max_sample_delay] after the one before, it ends at the sample
    before. *)
Theorem closing_sample :
  (forall (st : curr_state) (start previous sample : Sample),
      charge_start st = Some start ->
      last_sample st = Some previous ->
      (ChargingCurr sample < charge_thresh_end)%Q
      \/ max_sample_delay < Stamp sample - Stamp previous ->
      exists st' c,
        curr_body charge_thresh_start charge_thresh_end min_charge_samples
                  min_charge_amount max_sample_delay min_charge_time st sample
        = Ok st'
        /\ curr_closed_with st st' c
        /\ cycle_start c = start /\ cycle_end c = previous)
  /\ (forall (st : soc_state) (history : list Q) (start sample : Sample) (diff : Q),
        soc_charge_start st = Some start ->
        (forall tail, last (soc_cycles st) = Some tail ->
                      Stamp (cycle_end tail) < Stamp start) ->
        (forall tail, last (soc_discarded_cycles st) = Some tail ->
                      Stamp (cycle_end tail) < Stamp start) ->
        (diff < charge_thresh_end)%Q ->
        exists st' c,
          soc_body charge_thresh_start charge_thresh_end min_charge_samples
                   max_sample_delay min_charge_time min_charge_amount
                   merge_within st history sample diff = Ok st'
          /\ soc_closed_with st st' c /\ cycle_end c = sample)
  /\ (forall (st : soc_state) (history : list Q) (start previous sample : Sample)
             (diff : Q),
        soc_charge_start st = Some start ->
        soc_last_sample st = Some previous ->
        (forall tail, last (soc_cycles st) = Some tail ->
                      Stamp (cycle_end tail) < Stamp start) ->
        (forall tail, last (soc_discarded_cycles st) = Some tail ->
                      Stamp (cycle_end tail) < Stamp start) ->
        ~ (diff < charge_thresh_end)%Q ->
        max_sample_delay < Stamp sample - Stamp previous ->
        exists st' c,
          soc_body charge_thresh_start charge_thresh_end min_charge_samples
                   max_sample_delay min_charge_time min_charge_amount
                   merge_within st history sample diff = Ok st'
          /\ soc_closed_with st st' c /\ cycle_end c = previous).
Proof.
  split; [|split].
  - intros st start previous sample Hstart Hlast Hwhy.
    unfold curr_body. rewrite Hstart, Hlast.
    destruct (curr_close_written st start previous (charge_sample_count st)
                (charge_avg_curr st)) as (c & Hc).
    destruct (Qltb (ChargingCurr sample) charge_thresh_end) eqn:Hthresh; [by eauto|].
    destruct Hwhy as [Hbelow|Hdelay].
    + apply Qltb_lt in Hbelow. congruence.
    + apply Z.ltb_lt in Hdelay. rewrite Hdelay. eauto.
  - intros st history start sample diff Hstart Hc Hd Hthresh.
    apply Qltb_lt in Hthresh.
    unfold soc_body. rewrite Hstart, Hthresh.
    by apply soc_closing_step.
  - intros st history start previous sample diff Hstart Hlast Hc Hd Hthresh Hdelay.
    apply Qltb_ge in Hthresh.
    unfold soc_body. rewrite Hstart, Hthresh, Hlast.
    apply Z.ltb_lt in Hdelay. rewrite Hdelay.
    by apply soc_closing_step.
Qed.
End CloseSample.

(** The state [soc_charging_state] is the one the extractor is in after the
    first four samples of [soc_scenario]. *)
Lemma soc_charging_state_reached :
  soc_loop 2 (1 # 10) (1 # 10) 1 600 5 (1 # 20) 1800 soc_init (take 4 soc_scenario)
  = Ok soc_charging_state.
Proof. reflexivity. Qed.

(** C6, amended, at a current of 0 after the sample at 180, at the sample at
    40 of [soc_scenario], whose derivative is 0, and at a sample that comes
    4970 s after the sample at 30. *)
Lemma closing_sample_witness :
  (exists st' c,
      curr_body (1 # 10) (1 # 10) 1 (1 # 20) 600 5 curr_charging_state
                (reading 240 0 (9 # 10)) = Ok st'
      /\ curr_closed_with curr_charging_state st' c
      /\ cycle_start c = reading 120 55 (2 # 10)
      /\ cycle_end c = reading 180 60 (9 # 10))
  /\ (exists st' c,
        soc_body (1 # 10) (1 # 10) 1 600 5 (1 # 20) 1800 soc_charging_state
                 [3 # 4; 3 # 4] (set_soc_diff (soc_reading 40 (3 # 4)) 0) 0 = Ok st'
        /\ soc_closed_with soc_charging_state st' c
        /\ cycle_end c = set_soc_diff (soc_reading 40 (3 # 4)) 0)
  /\ (exists st' c,
        soc_body (1 # 10) (1 # 10) 1 600 5 (1 # 20) 1800 soc_charging_state
                 [3 # 4; 1 # 1] (set_soc_diff (soc_reading 5000 1) (1 # 4)) (1 # 4)
        = Ok st'
        /\ soc_closed_with soc_charging_state st' c
        /\ cycle_end c = set_soc_diff (soc_reading 30 (3 # 4)) (4 # 16)).
Proof.
  destruct (closing_sample (1 # 10) (1 # 10) 1 (1 # 20) 600 5 1800)
    as (Hcurr & Hsoc & Htimeout).
  split; [|split].
  - apply (Hcurr curr_charging_state (reading 120 55 (2 # 10))
                 (reading 180 60 (9 # 10)) (reading 240 0 (9 # 10)));
      [reflexivity | reflexivity | left; reflexivity].
  - apply (Hsoc soc_charging_state [3 # 4; 3 # 4]
                (set_soc_diff (soc_reading 10 (1 # 4)) (1 # 4))
                (set_soc_diff (soc_reading 40 (3 # 4)) 0) 0%Q);
      [reflexivity | intros tail [=] | intros tail [=] | reflexivity].
  - apply (Htimeout soc_charging_state [3 # 4; 1 # 1]
                    (set_soc_diff (soc_reading 10 (1 # 4)) (1 # 4))
                    (set_soc_diff (soc_reading 30 (3 # 4)) (4 # 16))
                    (set_soc_diff (soc_reading 5000 1) (1 # 4)) (1 # 4));
      [reflexivity | reflexivity | intros tail [=] | intros tail [=]
      | unfold Qlt; cbn; lia | cbn; lia].
Defined.

(** C6, as the specification states it for the SoC-based extractor, does not
    hold: in [soc_charging_state], whose last sample is the one at 30, the
    sample at 40 has a derivative of 0, below the threshold 1/10, and the
    cycle that is closed ends at the sample at 40. *)
Lemma soc_threshold_close_not_at_previous :
  ~ soc_closes_at_previous (1 # 10) (1 # 10) 1 600 5 (1 # 20) 1800
      soc_charging_state [3 # 4; 3 # 4]
      (set_soc_diff (soc_reading 40 (3 # 4)) 0) 0.
Proof.
  intros Hclaim.
  edestruct Hclaim as (c & Hwritten & Hend);
    [reflexivity | reflexivity | reflexivity | reflexivity |].
  unfold soc_closed_with, written_last in Hwritten. cbn in Hwritten.
  destruct Hwritten as [[[Hc | Hc] _] | [Hc _]];
    [injection Hc as <- | injection Hc as <- | discriminate];
    cbn in Hend; discriminate.
Qed.

(** ** The adjacency merge of the SoC-based extractor *)

(** What the merge into the accepted tail writes: the start of the tail, the
    end of the candidate, the fourth component of the tail plus the sample
    count of the candidate, and the state of charge gained since the start of
    the tail. *)
Lemma soc_close_merges_tail min_charge_samples min_charge_time min_charge_amount
    merge_within cycles discarded_cycles charge_start charge_end count tail :
  can_merge (Sequence cycles) (charge_start, charge_end) merge_within = Ok true ->
  last cycles = Some tail ->
  soc_close min_charge_samples min_charge_time min_charge_amount merge_within
            cycles discarded_cycles charge_start charge_end count
  = Ok (removelast cycles ++
          [ {| cycle_start := cycle_start tail; cycle_end := charge_end;
               sample_count := thresh_value tail + count;
               thresh_value := soc_smooth charge_end - soc_smooth (cycle_start tail) |} ],
        discarded_cycles).
Proof. intros Hm Htail. unfold soc_close. rewrite Hm. cbn. by rewrite Htail. Qed.

(** C7.  On [soc_scenario] the candidate [(50, 80)] with 3 samples is merged
    into the accepted cycle [(10, 40)], which has 3 samples and the metric
    1/2: no second cycle is emitted, the tail ends at 80 and its metric is
    the gain 5/4 since its start, but its sample count is 1/2 + 3 = 7/2 and
    not 3 + 3. *)
Theorem soc_tail_merge_count :
  exists c : Cycle,
    extract_cycles_soc 2 (1 # 10) (1 # 10) 1 600 5 (1 # 20) 1800 soc_scenario
    = Ok ([c], [])
    /\ Stamp (cycle_start c) = 10
    /\ Stamp (cycle_end c) = 80
    /\ (thresh_value c == 5 # 4)%Q
    /\ (sample_count c == 7 # 2)%Q
    /\ ~ (sample_count c == 3 + 3)%Q.
Proof.
  eexists. split; [vm_compute; reflexivity|].
  repeat split; try reflexivity. cbn. unfold Qeq. cbn. lia.
Qed.

(** The accepted cycle before the merge: after the sample at 40 the
    accepted list holds the cycle [(10, 40)] with 3 samples and the metric
    1/2. *)
Lemma soc_scenario_first_cycle :
  exists c : Cycle,
    extract_cycles_soc 2 (1 # 10) (1 # 10) 1 600 5 (1 # 20) 1800
                       (take 5 soc_scenario)
    = Ok ([c], [])
    /\ Stamp (cycle_start c) = 10
    /\ Stamp (cycle_end c) = 40
    /\ (sample_count c == 3)%Q
    /\ (thresh_value c == 1 # 2)%Q.
Proof.
  eexists. split; [vm_compute; reflexivity|]. repeat split; reflexivity.
Qed.

(** ** The extractors return *)

Section CurrentReturns.
Variables charge_thresh_start charge_thresh_end : Q.
Variable min_charge_samples : Q.
Variable min_charge_amount : Q.
Variable max_sample_delay : Z.
Variable min_charge_time : Z.

Lemma curr_step_returns st sample :
  curr_invariant st ->
  exists st',
    curr_step charge_thresh_start charge_thresh_end min_charge_samples
              min_charge_amount max_sample_delay min_charge_time st sample
    = Ok st'
    /\ curr_invariant st'.
Proof.
  intros Hinv. unfold curr_step, curr_body.
  destruct (charge_start st) as [start|] eqn:Hstart.
  - destruct Hinv as [|[p Hp]]; [congruence|]. rewrite Hp.
    destruct (Qltb _ _); [|destruct (_ <? _)];
      eexists; (split; [reflexivity|]); right; cbn; eauto.
  - destruct (Qgtb _ _); eexists; (split; [reflexivity|]); right; cbn; eauto.
Qed.

Lemma curr_loop_returns charge_samples :
  forall st,
    curr_invariant st ->
    exists st',
      curr_loop charge_thresh_start charge_thresh_end min_charge_samples
                min_charge_amount max_sample_delay min_charge_time st
                charge_samples
      = Ok st'.
Proof.
  induction charge_samples as [|sample rest IH]; intros st Hinv; [by eexists|].
  cbn [curr_loop].
  destruct (curr_step_returns st sample Hinv) as (st' & -> & Hinv').
  cbn. by apply IH.
Qed.

(** The current-based extractor returns its two lists on every list of
    samples. *)
Lemma extract_cycles_curr_returns charge_samples :
  exists lists,
    extract_cycles_curr charge_thresh_start charge_thresh_end min_charge_samples
                        min_charge_amount max_sample_delay min_charge_time
                        charge_samples
    = Ok lists.
Proof.
  unfold extract_cycles_curr.
  destruct (curr_loop_returns charge_samples curr_init) as [st ->];
    [by left | by eexists].
Qed.
End CurrentReturns.




Section SocReturns.
Variable derivate_span : nat.
Variables charge_thresh_start charge_thresh_end : Q.
Variable min_charge_samples : Q.
Variable max_sample_delay : Z.
Variable min_charge_time : Z.
Variable min_charge_amount : Q.
Variable merge_within : Z.
Hypothesis span_two : (2 <= derivate_span)%nat.






End SocReturns.

(** * Further properties *)

(** ** The smoother on whole lists *)

Module SmoothRuns.
Import Smooth SmoothFacts.

Lemma available_insert_other (d : gmap string pyval) key key' v :
  key <> key' ->
  available (Some (<[key' := v]> d)) key = available (Some d) key.
Proof.
  intros Hne. unfold available.
  rewrite dict_truthy_insert, lookup_insert_ne by done. cbn.
  destruct (d !! key) as [w|] eqn:Hk; [|by rewrite andb_false_r].
  by rewrite (dict_truthy_lookup _ _ _ Hk).
Qed.

Section Runs.
Variable alpha : Q.
Variable default_value : pyval.
Variables label label_smooth : string.

Lemma smooth_loop_writes samples :
  forall last out,
    smooth_loop alpha default_value label label_smooth last samples = Ok out ->
    Forall2 (fun s o : gmap string pyval => exists v, o = <[label_smooth := v]> s)
            samples out.
Proof.
  induction samples as [|sample rest IH]; intros last out.
  - intros [= <-]. constructor.
  - cbn [smooth_loop]. bind_case v Ev. bind_case rest' Erest.
    intros [= <-]. constructor; [by eexists|]. by eapply IH.
Qed.

Lemma smooth_value_insert last (sample : gmap string pyval) v :
  label <> label_smooth ->
  smooth_value alpha default_value label label_smooth last
               (<[label_smooth := v]> sample)
  = smooth_value alpha default_value label label_smooth last sample.
Proof.
  intros Hne. unfold smooth_value, item.
  by rewrite available_insert_other, lookup_insert_ne.
Qed.

Lemma smooth_loop_again samples :
  label <> label_smooth ->
  forall last out,
    smooth_loop alpha default_value label label_smooth last samples = Ok out ->
    smooth_loop alpha default_value label label_smooth last out = Ok out.
Proof.
  intros Hne. induction samples as [|sample rest IH]; intros last out.
  - by intros [= <-].
  - cbn [smooth_loop]. bind_case v Ev. bind_case rest' Erest.
    intros [= <-]. cbn [smooth_loop].
    rewrite smooth_value_insert, Ev by done. cbn.
    rewrite insert_insert_eq. by rewrite (IH _ _ Erest).
Qed.

Lemma smooth_loop_default samples :
  forall last,
    available last label_smooth = false \/ item last label_smooth = default_value ->
    Forall (fun s : gmap string pyval => absent_or_falsy (s !! label)) samples ->
    smooth_loop alpha default_value label label_smooth last samples
    = Ok (map (fun s : gmap string pyval => <[label_smooth := default_value]> s)
              samples).
Proof.
  induction samples as [|sample rest IH]; intros last Hlast Hall; [done|].
  apply Forall_cons in Hall as [Hraw Hrest].
  cbn [smooth_loop]. rewrite (smooth_value_falsy _ _ _ _ _ _ Hraw).
  assert ((if available last label_smooth then item last label_smooth
           else default_value) = default_value) as ->.
  { destruct Hlast as [-> | Hitem]; [done|].
    by destruct (available last label_smooth). }
  cbn. rewrite IH; [done| |done].
  right. cbn. by rewrite lookup_insert_eq.
Qed.
End Runs.

(** X1.  A run of [smooth] that returns gives back as many samples as it
    got; each of them now has the smoothed attribute, and every other
    attribute of every sample is what it was. *)
Theorem smooth_only_writes_smoothed samples label label_smooth alpha default_value
    out :
  smooth samples label label_smooth alpha default_value = Ok out ->
  length out = length samples
  /\ forall (i : nat) (s o : gmap string pyval),
       samples !! i = Some s -> out !! i = Some o ->
       is_Some (o !! smooth_label label label_smooth)
       /\ forall key, key <> smooth_label label label_smooth ->
                      o !! key = s !! key.
Proof.
  unfold smooth. intros Hrun. apply smooth_loop_writes in Hrun.
  split; [symmetry; by eapply Forall2_length|].
  intros i s o Hs Ho.
  destruct (Forall2_lookup_lr _ _ _ _ _ _ Hrun Hs Ho) as [v ->].
  split; [rewrite lookup_insert_eq; eauto|].
  intros key Hkey. by rewrite lookup_insert_ne.
Qed.

(** X2.  When the smoothed attribute has another name than the raw one,
    smoothing the result of a run once more changes nothing. *)
Theorem smooth_twice samples label label_smooth alpha default_value out :
  label <> smooth_label label label_smooth ->
  smooth samples label label_smooth alpha default_value = Ok out ->
  smooth out label label_smooth alpha default_value = Ok out.
Proof. unfold smooth. intros Hne. by apply smooth_loop_again. Qed.

(** X3.  When no sample has a usable raw value (the attribute is missing,
    [None] or zero in each), every sample gets the default value. *)
Theorem smooth_all_absent samples label label_smooth alpha default_value :
  Forall (fun s : gmap string pyval => absent_or_falsy (s !! label)) samples ->
  smooth samples label label_smooth alpha default_value
  = Ok (map (fun s : gmap string pyval =>
               <[smooth_label label label_smooth := default_value]> s) samples).
Proof. unfold smooth. intros Hall. apply smooth_loop_default; [by left|done]. Qed.

(** X5.  Smoothing an attribute that holds datetimes raises a type error at
    the second sample: the first datetime is taken as the starting value,
    and the smoothing formula multiplies it by [alpha]. *)
Theorem smooth_datetime_raises (s1 s2 : gmap string pyval) rest label label_smooth
    alpha default_value (t1 t2 : Z) :
  s1 !! label = Some (VStamp t1) ->
  s2 !! label = Some (VStamp t2) ->
  smooth (s1 :: s2 :: rest) label label_smooth alpha default_value
  = Err TypeError.
Proof.
  intros H1 H2. unfold smooth.
  assert (forall (d : gmap string pyval) t,
             d !! label = Some (VStamp t) -> available (Some d) label = true)
    as Hav.
  { intros d t Hd. unfold available.
    by rewrite (dict_truthy_lookup _ _ _ Hd), Hd. }
  set (ls := smooth_label label label_smooth).
  assert (smooth_value alpha default_value label ls None s1 = Ok (VStamp t1))
    as E1.
  { unfold smooth_value. rewrite (Hav _ _ H1). cbn. by rewrite H1. }
  assert (smooth_value alpha default_value label ls
            (Some (<[ls := VStamp t1]> s1)) s2 = Err TypeError) as E2.
  { assert (available (Some (<[ls := VStamp t1]> s1)) ls = true) as Hprev.
    { unfold available. by rewrite dict_truthy_insert, lookup_insert_eq. }
    unfold smooth_value. rewrite (Hav _ _ H2), Hprev. cbn.
    by rewrite lookup_insert_eq, H2. }
  cbn [smooth_loop]. rewrite E1. cbn. by rewrite E2.
Qed.

Lemma smooth_only_writes_smoothed_witness :
  length [<["v_smooth" := VNum 10]> (row 0 (VNum 10));
          <["v_smooth" := VNum ((1 # 2) * 10 + (1 - (1 # 2)) * 20)]> (row 1000 (VNum 20))]
  = length [row 0 (VNum 10); row 1000 (VNum 20)]
  /\ forall (i : nat) (s o : gmap string pyval),
       [row 0 (VNum 10); row 1000 (VNum 20)] !! i = Some s ->
       [<["v_smooth" := VNum 10]> (row 0 (VNum 10));
        <["v_smooth" := VNum ((1 # 2) * 10 + (1 - (1 # 2)) * 20)]>
          (row 1000 (VNum 20))] !! i = Some o ->
       is_Some (o !! smooth_label "v" None)
       /\ forall key, key <> smooth_label "v" None -> o !! key = s !! key.
Proof.
  apply (smooth_only_writes_smoothed
           [row 0 (VNum 10); row 1000 (VNum 20)] "v" None (1 # 2) VNone).
  reflexivity.
Defined.

Lemma smooth_twice_witness :
  smooth [<["v_smooth" := VNum 10]> (row 0 (VNum 10));
          <["v_smooth" := VNum ((1 # 2) * 10 + (1 - (1 # 2)) * 20)]>
            (row 1000 (VNum 20))] "v" None (1 # 2) VNone
  = Ok [<["v_smooth" := VNum 10]> (row 0 (VNum 10));
        <["v_smooth" := VNum ((1 # 2) * 10 + (1 - (1 # 2)) * 20)]>
          (row 1000 (VNum 20))].
Proof.
  apply (smooth_twice [row 0 (VNum 10); row 1000 (VNum 20)] "v" None (1 # 2) VNone).
  - discriminate.
  - reflexivity.
Defined.

Lemma smooth_all_absent_witness :
  smooth [row 0 VNone; row 10 (VNum 0)] "v" None (1 # 2) (VNum 7)
  = Ok (map (fun s : gmap string pyval => <[smooth_label "v" None := VNum 7]> s)
            [row 0 VNone; row 10 (VNum 0)]).
Proof.
  apply (smooth_all_absent [row 0 VNone; row 10 (VNum 0)] "v" None (1 # 2) (VNum 7)).
  constructor; [|constructor; [|constructor]].
  - right; left. reflexivity.
  - right; right. exists 0%Q. split; reflexivity.
Defined.

Lemma smooth_datetime_raises_witness :
  smooth [row 0 (VNum 10); row 1000 (VNum 20)] "Stamp" None (1 # 2) VNone
  = Err TypeError.
Proof.
  apply (smooth_datetime_raises (row 0 (VNum 10)) (row 1000 (VNum 20)) []
           "Stamp" None (1 # 2) VNone 0 1000); reflexivity.
Defined.

End SmoothRuns.

(** ** More on the merge predicate *)

(** X6.  A pair that can be merged within a window can be merged within
    every larger window. *)
Theorem can_merge_window_monotone {L N : Type} `{Interval L} `{Interval N}
    (last_cycle : merge_target L) (new_cycle : N) (merge_within merge_within' : Z) :
  can_merge last_cycle new_cycle merge_within = Ok true ->
  merge_within <= merge_within' ->
  can_merge last_cycle new_cycle merge_within' = Ok true.
Proof.
  unfold can_merge. intros Hmerge Hle.
  destruct (match last_cycle with Sequence l => last l | Single c => Some c end)
    as [last_cycle'|]; [|done].
  cbv zeta in *.
  destruct (_ <=? _); [done|].
  destruct (negb _); [done|].
  destruct (Z.ltb_spec merge_within
              (Stamp (itv_start new_cycle) - Stamp (itv_end last_cycle')));
    [done|].
  destruct (Z.ltb_spec merge_within'
              (Stamp (itv_start new_cycle) - Stamp (itv_end last_cycle')));
    [lia|done].
Qed.

Lemma can_merge_window_monotone_witness :
  can_merge (Single (interval 10 20 1 TypeA)) (interval 25 40 1 TypeS) 1800
  = Ok true.
Proof.
  apply (can_merge_window_monotone (Single (interval 10 20 1 TypeA))
           (interval 25 40 1 TypeS) 10 1800); [reflexivity|lia].
Defined.

(** X7.  For two cycles that each start no later than they end, the
    assertion of [can_merge] fails exactly when the new cycle ends before the
    last one starts. *)
Theorem can_merge_assertion {L N : Type} `{Interval L} `{Interval N}
    (last_cycle : L) (new_cycle : N) (merge_within : Z) :
  Stamp (itv_start last_cycle) <= Stamp (itv_end last_cycle) ->
  Stamp (itv_start new_cycle) <= Stamp (itv_end new_cycle) ->
  can_merge (Single last_cycle) new_cycle merge_within = Err AssertionError
  <-> Stamp (itv_end new_cycle) < Stamp (itv_start last_cycle).
Proof.
  intros Hlast Hnew. unfold can_merge. cbv zeta.
  destruct (Z.leb_spec
              (Z.max (Stamp (itv_start last_cycle)) (Stamp (itv_start new_cycle)))
              (Z.min (Stamp (itv_end last_cycle)) (Stamp (itv_end new_cycle))));
    [split; [done|lia]|].
  destruct (Z.ltb_spec 0 (Stamp (itv_start new_cycle) - Stamp (itv_end last_cycle)));
    cbn [negb].
  - split; [|lia]. repeat destruct (_ <? _); done.
  - split; [lia|done].
Qed.

Lemma can_merge_assertion_witness :
  can_merge (Single (interval 10 20 1 TypeA)) (interval 5 8 1 TypeS) 1800
  = Err AssertionError
  <-> Stamp (itv_end (interval 5 8 1 TypeS))
      < Stamp (itv_start (interval 10 20 1 TypeA)).
Proof.
  apply (can_merge_assertion (interval 10 20 1 TypeA) (interval 5 8 1 TypeS) 1800);
    cbn; lia.
Defined.

(** ** More on the interval merger *)

Lemma merge_pair_start first second merge_within x :
  merge_pair first second merge_within = Ok x ->
  merged_start x = Stamp (cycle_start (fst first)).
Proof. intros Hx. by destruct (merge_pair_ok _ _ _ _ Hx) as [-> | ->]. Qed.

Lemma merged_start_kept (l : list (Cycle * cycle_type)) :
  map merged_start (map Kept l) = map (fun c => Stamp (cycle_start (fst c))) l.
Proof. by rewrite map_map. Qed.

(** X9.  The start times of the merged list are the start times of the two
    input lists, each as many times as it occurs there: every input cycle
    opens one element of the result, on its own or as the first half of a
    merged cycle. *)
Theorem merge_cycles_starts cycles_a cycles_b merge_within merged :
  merge_cycles cycles_a cycles_b merge_within = Ok merged ->
  map merged_start merged
  ≡ₚ map (fun c => Stamp (cycle_start (fst c))) (cycles_a ++ cycles_b).
Proof.
  unfold merge_cycles. revert cycles_b merged.
  induction cycles_a as [|first rest_a IHa]; intros cycles_b merged.
  - cbn [merge_loop]. intros [= <-]. by rewrite merged_start_kept.
  - induction cycles_b as [|second rest_b IHb] in merged |- *.
    + rewrite merge_loop_nil_r. intros [= <-].
      change (Kept first :: map Kept rest_a) with (map Kept (first :: rest_a)).
      by rewrite merged_start_kept, app_nil_r.
    + rewrite merge_loop_cons.
      destruct (Stamp (cycle_start (fst first)) <? Stamp (cycle_start (fst second))).
      * bind_case x Ex. bind_case xs Exs. intros [= <-].
        cbn [map app]. rewrite (merge_pair_start _ _ _ _ Ex).
        by rewrite (IHa _ _ Exs).
      * bind_case x Ex. bind_case xs Exs. intros [= <-].
        cbn [map]. rewrite (merge_pair_start _ _ _ _ Ex).
        rewrite (IHb _ eq_refl).
        rewrite !map_app. cbn [map app].
        exact (Permutation_middle (_ :: _) _ _).
Qed.

Lemma merge_cycles_starts_witness :
  map merged_start [Merged 10 40 (3 + 4)%Q 5 TypeM; Kept (interval 25 40 4 TypeS)]
  ≡ₚ map (fun c => Stamp (cycle_start (fst c)))
         ([interval 10 20 3 TypeA] ++ [interval 25 40 4 TypeS]).
Proof.
  apply (merge_cycles_starts [interval 10 20 3 TypeA] [interval 25 40 4 TypeS] 10).
  reflexivity.
Defined.

Lemma merge_loop_nondecreasing merge_within cycles_a :
  forall cycles_b merged (bound : Z),
    nondecreasing (bound :: map (fun c => Stamp (cycle_start (fst c))) cycles_a) ->
    nondecreasing (bound :: map (fun c => Stamp (cycle_start (fst c))) cycles_b) ->
    merge_loop merge_within cycles_a cycles_b = Ok merged ->
    nondecreasing (bound :: map merged_start merged).
Proof.
  induction cycles_a as [|first rest_a IHa]; intros cycles_b merged bound Ha Hb.
  - cbn [merge_loop]. intros [= <-]. by rewrite merged_start_kept.
  - induction cycles_b as [|second rest_b IHb] in merged, bound, Ha, Hb |- *.
    + rewrite merge_loop_nil_r. intros [= <-].
      change (Kept first :: map Kept rest_a) with (map Kept (first :: rest_a)).
      by rewrite merged_start_kept.
    + rewrite merge_loop_cons.
      destruct (Z.ltb_spec (Stamp (cycle_start (fst first)))
                  (Stamp (cycle_start (fst second)))) as [Hlt|Hge].
      * bind_case x Ex. bind_case xs Exs. intros [= <-].
        cbn [map]. rewrite (merge_pair_start _ _ _ _ Ex).
        destruct Ha as [Hbound Ha]. split; [done|].
        apply (IHa (second :: rest_b)); [done| |done].
        split; [cbn; lia|]. by destruct Hb.
      * bind_case x Ex. bind_case xs Exs. intros [= <-].
        cbn [map]. rewrite (merge_pair_start _ _ _ _ Ex).
        destruct Hb as [Hbound Hb]. split; [done|].
        apply IHb; [|done|done].
        split; [cbn; lia|]. by destruct Ha.
Qed.

(** X10.  When the cycles of each input list are in non-decreasing order of
    their start times, so are the elements of the merged list. *)
Theorem merge_cycles_nondecreasing cycles_a cycles_b merge_within merged :
  nondecreasing (map (fun c => Stamp (cycle_start (fst c))) cycles_a) ->
  nondecreasing (map (fun c => Stamp (cycle_start (fst c))) cycles_b) ->
  merge_cycles cycles_a cycles_b merge_within = Ok merged ->
  nondecreasing (map merged_start merged).
Proof.
  intros Ha Hb Hmerge.
  set (starts := map (fun c => Stamp (cycle_start (fst c))) (cycles_a ++ cycles_b)).
  set (bound := foldr Z.min 0 starts).
  assert (forall l, Forall (fun t => foldr Z.min 0 l <= t) l) as Hmin.
  { induction l as [|t l IH]; constructor; cbn; [lia|].
    eapply Forall_impl; [exact IH|]. cbn. lia. }
  assert (forall l, Forall (fun t => bound <= t) l -> nondecreasing l ->
                    nondecreasing (bound :: l)) as Hcons.
  { intros [|t l] Hall Hl; [done|]. apply Forall_cons in Hall as [Ht _]. by split. }
  specialize (Hmin starts). unfold starts in Hmin at 2.
  rewrite map_app in Hmin. apply Forall_app in Hmin as [Hmina Hminb].
  by destruct (merge_loop_nondecreasing merge_within cycles_a cycles_b merged bound
                 (Hcons _ Hmina Ha) (Hcons _ Hminb Hb) Hmerge).
Qed.

Lemma merge_cycles_nondecreasing_witness :
  nondecreasing
    (map merged_start
         [Merged 10 40 (3 + 4)%Q 5 TypeM; Kept (interval 25 40 4 TypeS)]).
Proof.
  apply (merge_cycles_nondecreasing [interval 10 20 3 TypeA]
           [interval 25 40 4 TypeS] 10); [done|done|reflexivity].
Defined.


(** ** More on the current-based extractor *)

Lemma cycles_ordered_snoc (l : list Cycle) (c : Cycle) :
  cycles_ordered l ->
  (forall c', c' ∈ l -> Stamp (cycle_end c') < Stamp (cycle_start c)) ->
  Stamp (cycle_start c) <= Stamp (cycle_end c) ->
  cycles_ordered (l ++ [c]).
Proof.
  intros Hl Hbefore Hc. induction l as [|a l IH]; [by cbn|].
  destruct Hl as (Ha & Hnext & Hl). cbn [app cycles_ordered].
  split; [done|]. split.
  - destruct l as [|b l]; cbn; [|done].
    apply Hbefore. by left.
  - apply IH; [done|]. intros c' Hc'. apply Hbefore. by right.
Qed.

Section CurrentRuns.
Variables charge_thresh_start charge_thresh_end : Q.
Variable min_charge_samples : Q.
Variable min_charge_amount : Q.
Variable max_sample_delay : Z.
Variable min_charge_time : Z.

Lemma long_enough_counted (s e : Sample) (count avg : Q) :
  long_enough min_charge_samples min_charge_amount min_charge_time s e count = true
  <-> counted min_charge_samples min_charge_amount min_charge_time {| cycle_start := s; cycle_end := e; sample_count := count;
                    thresh_value := avg |}.
Proof.
  unfold long_enough, counted, Qgtb. cbn.
  rewrite !andb_true_iff, !Qltb_lt, Z.ltb_lt. tauto.
Qed.

(** The four ways in which one iteration changes the variables: it stays
    idle, it opens a cycle, it goes on with the open cycle, or it closes the
    open cycle at the sample before. *)
Lemma curr_step_cases st sample :
  curr_invariant st ->
  exists st',
    curr_step charge_thresh_start charge_thresh_end min_charge_samples
              min_charge_amount max_sample_delay min_charge_time st sample = Ok st'
    /\ last_sample st' = Some sample
    /\ ((charge_start st = None /\ charge_start st' = None
         /\ ~ (charge_thresh_start < ChargingCurr sample)%Q
         /\ cycles st' = cycles st /\ discarded_cycles st' = discarded_cycles st)
        \/ (charge_start st = None /\ charge_start st' = Some sample
            /\ (charge_thresh_start < ChargingCurr sample)%Q
            /\ cycles st' = cycles st
            /\ discarded_cycles st' = discarded_cycles st)
        \/ (exists s p,
              charge_start st = Some s /\ last_sample st = Some p
              /\ charge_start st' = Some s
              /\ ~ (ChargingCurr sample < charge_thresh_end)%Q
              /\ Stamp sample - Stamp p <= max_sample_delay
              /\ cycles st' = cycles st
              /\ discarded_cycles st' = discarded_cycles st)
        \/ (exists s p c,
              charge_start st = Some s /\ last_sample st = Some p
              /\ charge_start st' = None
              /\ ((ChargingCurr sample < charge_thresh_end)%Q
                  \/ max_sample_delay < Stamp sample - Stamp p)
              /\ cycle_start c = s /\ cycle_end c = p
              /\ ((counted min_charge_samples min_charge_amount min_charge_time c
                   /\ cycles st' = cycles st ++ [c]
                   /\ discarded_cycles st' = discarded_cycles st)
                  \/ (~ counted min_charge_samples min_charge_amount min_charge_time c
                      /\ cycles st' = cycles st
                      /\ discarded_cycles st' = discarded_cycles st ++ [c])))).
Proof.
  intros Hinv. unfold curr_step, curr_body.
  destruct (charge_start st) as [s|] eqn:Hstart.
  - destruct Hinv as [|[p Hp]]; [congruence|]. rewrite Hp.
    assert (forall why : (ChargingCurr sample < charge_thresh_end)%Q
                         \/ max_sample_delay < Stamp sample - Stamp p,
              exists c,
                let st' := curr_close min_charge_samples min_charge_amount
                             min_charge_time st s (Some p)
                             (charge_sample_count st) (charge_avg_curr st) in
                charge_start st' = None
                /\ cycle_start c = s /\ cycle_end c = p
                /\ ((counted min_charge_samples min_charge_amount min_charge_time c /\ cycles st' = cycles st ++ [c]
                     /\ discarded_cycles st' = discarded_cycles st)
                    \/ (~ counted min_charge_samples min_charge_amount min_charge_time c /\ cycles st' = cycles st
                        /\ discarded_cycles st' = discarded_cycles st ++ [c])))
      as Hclose.
    { intros _. unfold curr_close.
      destruct (long_enough _ _ _ s p (charge_sample_count st)) eqn:Hlong;
        exists {| cycle_start := s; cycle_end := p;
                  sample_count := charge_sample_count st;
                  thresh_value := charge_avg_curr st |};
        cbn; (split; [reflexivity|]); (split; [reflexivity|]);
        (split; [reflexivity|]).
      - left. split; [|done].
        by apply (long_enough_counted s p _ (charge_avg_curr st)).
      - right. split; [|done]. intros Hc.
        apply (long_enough_counted s p _ (charge_avg_curr st)) in Hc. congruence. }
    destruct (Qltb (ChargingCurr sample) charge_thresh_end) eqn:Hend.
    + apply Qltb_lt in Hend.
      destruct (Hclose (or_introl Hend)) as (c & Hc). cbv zeta in Hc.
      eexists. split; [reflexivity|].
      cbn [cycles discarded_cycles charge_start last_sample]. split; [done|].
      right; right; right. exists s, p, c. tauto.
    + apply Qltb_ge in Hend.
      destruct (Z.ltb_spec max_sample_delay (Stamp sample - Stamp p)) as [Hgap|Hgap].
      * destruct (Hclose (or_intror Hgap)) as (c & Hc). cbv zeta in Hc.
        eexists. split; [reflexivity|].
        cbn [cycles discarded_cycles charge_start last_sample]. split; [done|].
        right; right; right. exists s, p, c. tauto.
      * eexists. split; [reflexivity|]. cbn. split; [done|].
        right; right; left. exists s, p. tauto.
  - destruct (Qgtb (ChargingCurr sample) charge_thresh_start) eqn:Hopen;
      (eexists; split; [reflexivity|]; cbn; split; [done|]).
    + apply Qltb_lt in Hopen. right; left. tauto.
    + apply Qltb_ge in Hopen. left. tauto.
Qed.

Lemma curr_step_invariant st sample st' :
  curr_invariant st ->
  curr_step charge_thresh_start charge_thresh_end min_charge_samples
            min_charge_amount max_sample_delay min_charge_time st sample = Ok st' ->
  curr_invariant st'.
Proof.
  intros Hinv Hstep.
  destruct (curr_step_cases st sample Hinv) as (st'' & Hstep' & Hlast & _).
  rewrite Hstep in Hstep'. injection Hstep' as <-. right. eauto.
Qed.
Lemma curr_loop_spent charge_samples :
  forall st,
    curr_invariant st ->
    exists st',
      curr_loop charge_thresh_start charge_thresh_end min_charge_samples
                min_charge_amount max_sample_delay min_charge_time st
                charge_samples = Ok st'
      /\ (curr_spent st' <= curr_spent st + length charge_samples)%nat.
Proof.
  induction charge_samples as [|sample rest IH]; intros st Hinv.
  - eexists. split; [reflexivity|]. cbn. lia.
  - destruct (curr_step_cases st sample Hinv) as (st1 & Hstep & Hlast & Hcases).
    destruct (IH st1) as (st' & Hloop & Hspent); [right; eauto|].
    exists st'. split; [cbn [curr_loop]; rewrite Hstep; exact Hloop|].
    assert (curr_spent st1 <= curr_spent st + 1)%nat; [|cbn [length]; lia].
    unfold curr_spent.
    destruct Hcases as [(-> & -> & _ & -> & ->)
                       |[(-> & -> & _ & -> & ->)
                        |[(s & p & -> & _ & -> & _ & _ & -> & ->)
                         |(s & p & c & -> & _ & -> & _ & _ & _
                           & [(_ & -> & ->) | (_ & -> & ->)])]]];
      rewrite ?length_app; cbn [length]; lia.
Qed.

(** X11.  The two lists that a run returns hold together at most one cycle
    for every two samples: a cycle takes one sample to open and a later one
    to close. *)
Theorem extract_cycles_curr_count charge_samples accepted discarded :
  extract_cycles_curr charge_thresh_start charge_thresh_end min_charge_samples
                      min_charge_amount max_sample_delay min_charge_time
                      charge_samples = Ok (accepted, discarded) ->
  (2 * (length accepted + length discarded) <= length charge_samples)%nat.
Proof.
  unfold extract_cycles_curr.
  destruct (curr_loop_spent charge_samples curr_init) as (st & -> & Hspent);
    [by left|].
  cbn. intros [= <- <-].
  unfold curr_spent in Hspent. cbn in Hspent.
  destruct (charge_start st); lia.
Qed.

Lemma curr_loop_counted charge_samples :
  forall st,
    curr_invariant st ->
    Forall (counted min_charge_samples min_charge_amount min_charge_time)
           (cycles st) ->
    Forall (fun c => ~ counted min_charge_samples min_charge_amount
                               min_charge_time c) (discarded_cycles st) ->
    Forall (opened_above charge_thresh_start) (cycles st ++ discarded_cycles st) ->
    (forall s, charge_start st = Some s ->
               (charge_thresh_start < ChargingCurr s)%Q) ->
    exists st',
      curr_loop charge_thresh_start charge_thresh_end min_charge_samples
                min_charge_amount max_sample_delay min_charge_time st
                charge_samples = Ok st'
      /\ Forall (counted min_charge_samples min_charge_amount min_charge_time)
                (cycles st')
      /\ Forall (fun c => ~ counted min_charge_samples min_charge_amount
                                    min_charge_time c) (discarded_cycles st')
      /\ Forall (opened_above charge_thresh_start)
                (cycles st' ++ discarded_cycles st').
Proof.
  induction charge_samples as [|sample rest IH];
    intros st Hinv Hacc Hdisc Hopened Hopen; [by eauto|].
  destruct (curr_step_cases st sample Hinv) as (st1 & Hstep & Hlast & Hcases).
  cbn [curr_loop]. rewrite Hstep. cbn.
  apply IH; [right; eauto|..];
    destruct Hcases as [(Hs & Hs1 & Hno & Hc & Hd)
                       |[(Hs & Hs1 & Habove & Hc & Hd)
                        |[(s & p & Hs & Hp & Hs1 & _ & _ & Hc & Hd)
                         |(s & p & c & Hs & Hp & Hs1 & _ & Hcs & Hce
                           & [(Hcounted & Hc & Hd) | (Hcounted & Hc & Hd)])]]];
    rewrite ?Hc, ?Hd, ?Hs1; try done;
    try (intros ? [= <-]; first [done | by apply Hopen]).
  - apply Forall_app. split; [done|]. by constructor.
  - apply Forall_app. split; [done|]. by constructor.
  - rewrite <- app_assoc.
    apply Forall_app in Hopened as [Ha Hb]. apply Forall_app. split; [done|].
    apply Forall_cons. split; [|done].
    unfold opened_above. rewrite Hcs. by apply Hopen.
  - rewrite app_assoc. apply Forall_app. split; [done|].
    constructor; [|constructor].
    unfold opened_above. rewrite Hcs. by apply Hopen.
Qed.

(** X12.  Every cycle of the accepted list lasts longer than
    [min_charge_time], has more than [min_charge_samples] samples and gains
    more than [min_charge_amount] of state of charge; every cycle of the
    discarded list fails one of the three; and every cycle of either list
    starts at a sample whose current is above [charge_thresh_start]. *)
Theorem extract_cycles_curr_counted charge_samples :
  exists accepted discarded,
    extract_cycles_curr charge_thresh_start charge_thresh_end min_charge_samples
                        min_charge_amount max_sample_delay min_charge_time
                        charge_samples = Ok (accepted, discarded)
    /\ Forall (counted min_charge_samples min_charge_amount min_charge_time)
              accepted
    /\ Forall (fun c => ~ counted min_charge_samples min_charge_amount
                                  min_charge_time c) discarded
    /\ Forall (opened_above charge_thresh_start) (accepted ++ discarded).
Proof.
  unfold extract_cycles_curr.
  destruct (curr_loop_counted charge_samples curr_init)
    as (st & -> & Hacc & Hdisc & Hopened);
    [by left | constructor | constructor | constructor | done |].
  cbn. by eexists _, _.
Qed.

End CurrentRuns.

Section CurrentStreams.
Variables charge_thresh_start charge_thresh_end : Q.
Variable min_charge_samples : Q.
Variable min_charge_amount : Q.
Variable max_sample_delay : Z.
Variable min_charge_time : Z.

Lemma curr_loop_open charge_samples :
  forall t st,
    curr_invariant st ->
    cycles st = [] -> discarded_cycles st = [] ->
    (forall p, last_sample st = Some p -> Stamp p = t) ->
    (charge_start st = None \/ gaps_within_after max_sample_delay t charge_samples) ->
    gaps_within max_sample_delay charge_samples ->
    Forall (fun s => ~ (ChargingCurr s < charge_thresh_end)%Q) charge_samples ->
    exists st',
      curr_loop charge_thresh_start charge_thresh_end min_charge_samples
                min_charge_amount max_sample_delay min_charge_time st
                charge_samples = Ok st'
      /\ cycles st' = [] /\ discarded_cycles st' = [].
Proof.
  induction charge_samples as [|sample rest IH];
    intros t st Hinv Hc Hd Hlast Hgap Hgaps Habove; [by eauto|].
  apply Forall_cons in Habove as [Hsample Hrest].
  destruct (curr_step_cases charge_thresh_start charge_thresh_end
              min_charge_samples min_charge_amount max_sample_delay
              min_charge_time st sample Hinv) as (st1 & Hstep & Hlast1 & Hcases).
  cbn [curr_loop]. rewrite Hstep.
  assert (cycles st1 = [] /\ discarded_cycles st1 = []) as [Hc1 Hd1].
  { destruct Hcases as [(_ & _ & _ & -> & ->)
                       |[(_ & _ & _ & -> & ->)
                        |[(s & p & _ & _ & _ & _ & _ & -> & ->)
                         |(s & p & c & Hs & Hp & _ & Hwhy & _)]]]; try done.
    exfalso. destruct Hwhy as [Hbelow|Hlate]; [done|].
    destruct Hgap as [Hidle|[Hgap _]]; [congruence|].
    rewrite <- (Hlast p Hp) in Hgap. lia. }
  apply (IH (Stamp sample) st1); try done.
  - right. eauto.
  - intros p Hp. congruence.
  - by right.
  - destruct rest as [|next rest']; [done|]. by destruct Hgaps.
Qed.

(** X13.  A stream that gives no reason to close a cycle yields no cycle at
    all: when no sample has a current below [charge_thresh_end] and no
    sample comes more than [max_sample_delay] after the one before, both
    lists are empty, however long the charge that is still open. *)
Theorem extract_cycles_curr_open_stream charge_samples :
  Forall (fun s => ~ (ChargingCurr s < charge_thresh_end)%Q) charge_samples ->
  gaps_within max_sample_delay charge_samples ->
  extract_cycles_curr charge_thresh_start charge_thresh_end min_charge_samples
                      min_charge_amount max_sample_delay min_charge_time
                      charge_samples = Ok ([], []).
Proof.
  intros Habove Hgaps. unfold extract_cycles_curr.
  destruct (curr_loop_open charge_samples 0 curr_init)
    as (st & -> & Hc & Hd); try done; [by left | by left |].
  cbn. by rewrite Hc, Hd.
Qed.

Lemma curr_step_ordered t st sample :
  curr_invariant st ->
  curr_ordered t st ->
  t < Stamp sample ->
  exists st',
    curr_step charge_thresh_start charge_thresh_end min_charge_samples
              min_charge_amount max_sample_delay min_charge_time st sample = Ok st'
    /\ curr_invariant st'
    /\ curr_ordered (Stamp sample) st'.
Proof.
  intros Hinv (Hacc & Hdisc & Hends & Hlast & Hopen) Ht.
  destruct (curr_step_cases charge_thresh_start charge_thresh_end
              min_charge_samples min_charge_amount max_sample_delay
              min_charge_time st sample Hinv) as (st1 & Hstep & Hlast1 & Hcases).
  exists st1. split; [done|]. split; [right; eauto|].
  unfold curr_ordered. rewrite Hlast1.
  assert (forall c, c ∈ cycles st ++ discarded_cycles st ->
                    Stamp (cycle_end c) <= Stamp sample) as Hends'.
  { intros c Hc. specialize (Hends c Hc). lia. }
  destruct Hcases as [(Hs & Hs1 & _ & Hc & Hd)
                     |[(Hs & Hs1 & _ & Hc & Hd)
                      |[(s & p & Hs & Hp & Hs1 & _ & _ & Hc & Hd)
                       |(s & p & c & Hs & Hp & Hs1 & _ & Hcs & Hce & Hlists)]]].
  - rewrite Hc, Hd, Hs1.
    split; [done|]. split; [done|]. split; [done|].
    split; [intros q [= <-]; lia|]. intros s' [=].
  - rewrite Hc, Hd, Hs1.
    split; [done|]. split; [done|]. split; [done|].
    split; [intros q [= <-]; lia|]. intros s' [= <-].
    split; [exists sample; split; [done|lia]|].
    intros c Hc'. specialize (Hends c Hc'). lia.
  - rewrite Hc, Hd, Hs1. destruct (Hopen s Hs) as [(q & Hq & Hsq) Hbefore].
    rewrite Hp in Hq. injection Hq as <-. specialize (Hlast p Hp).
    split; [done|]. split; [done|]. split; [done|].
    split; [intros q [= <-]; lia|]. intros s' [= <-].
    split; [exists sample; split; [done|lia]|done].
  - destruct (Hopen s Hs) as [(q & Hq & Hsq) Hbefore].
    rewrite Hp in Hq. injection Hq as <-. specialize (Hlast p Hp).
    assert (Stamp (cycle_start c) <= Stamp (cycle_end c)) as Hwell
      by (rewrite Hcs, Hce; done).
    assert (forall l, (forall c', c' ∈ l -> c' ∈ cycles st ++ discarded_cycles st) ->
                      cycles_ordered l -> cycles_ordered (l ++ [c])) as Hsnoc.
    { intros l Hl Hord. apply cycles_ordered_snoc; [done| |done].
      intros c' Hc'. rewrite Hcs. apply Hbefore. by apply Hl. }
    assert (forall c', c' ∈ (cycles st ++ [c]) ++ discarded_cycles st
                       \/ c' ∈ cycles st ++ discarded_cycles st ++ [c] ->
                       Stamp (cycle_end c') <= Stamp sample) as Hnew.
    { intros c' Hc'. rewrite !elem_of_app, list_elem_of_singleton in Hc'.
      assert (c' ∈ cycles st ++ discarded_cycles st \/ c' = c) as [Hold | ->].
      { rewrite elem_of_app. tauto. }
      - by apply Hends'.
      - rewrite Hce. lia. }
    destruct Hlists as [(_ & Hc & Hd) | (_ & Hc & Hd)]; rewrite Hc, Hd, Hs1.
    + split; [|split; [done|]].
      { apply Hsnoc; [|done]. intros c' Hc'. apply elem_of_app. by left. }
      split; [intros c' Hc'; apply Hnew; by left|].
      split; [intros q [= <-]; lia|]. intros s' [=].
    + split; [done|]. split.
      { apply Hsnoc; [|done]. intros c' Hc'. apply elem_of_app. by right. }
      split; [intros c' Hc'; apply Hnew; by right|].
      split; [intros q [= <-]; lia|]. intros s' [=].
Qed.

Lemma curr_loop_ordered charge_samples :
  forall t st,
    curr_invariant st ->
    curr_ordered t st ->
    stamps_increase_after t charge_samples ->
    exists st',
      curr_loop charge_thresh_start charge_thresh_end min_charge_samples
                min_charge_amount max_sample_delay min_charge_time st
                charge_samples = Ok st'
      /\ cycles_ordered (cycles st') /\ cycles_ordered (discarded_cycles st').
Proof.
  induction charge_samples as [|sample rest IH]; intros t st Hinv Hord Hinc.
  - exists st. destruct Hord as (? & ? & _). by repeat split.
  - destruct Hinc as [Ht Hrest].
    destruct (curr_step_ordered t st sample Hinv Hord Ht)
      as (st1 & Hstep & Hinv1 & Hord1).
    cbn [curr_loop]. rewrite Hstep. by apply (IH (Stamp sample) st1).
Qed.

(** X14.  On samples whose timestamps strictly increase, the accepted list
    and the discarded list are each in order: every cycle starts no later
    than it ends, and strictly after the end of the cycle before it in the
    list. *)
Theorem extract_cycles_curr_ordered charge_samples :
  stamps_increase charge_samples ->
  exists accepted discarded,
    extract_cycles_curr charge_thresh_start charge_thresh_end min_charge_samples
                        min_charge_amount max_sample_delay min_charge_time
                        charge_samples = Ok (accepted, discarded)
    /\ cycles_ordered accepted /\ cycles_ordered discarded.
Proof.
  intros Hinc. unfold extract_cycles_curr.
  destruct (curr_loop_ordered charge_samples
              (match charge_samples with
               | [] => 0
               | sample :: _ => Stamp sample - 1
               end) curr_init) as (st & -> & Hacc & Hdisc).
  - by left.
  - unfold curr_ordered. cbn. repeat split; try done.
    intros c Hc. by apply elem_of_nil in Hc.
  - destruct charge_samples as [|sample rest]; [done|]. cbn in *. split; [lia|done].
  - cbn. by eexists _, _.
Qed.
End CurrentStreams.

(** X13 on the samples of the threshold scenario without the last one: the
    charge that starts at 120 is still open at the end. *)
Lemma extract_cycles_curr_open_stream_witness :
  extract_cycles_curr 50 50 1 (1 # 20) 600 60
    [reading 0 55 0; reading 60 55 0; reading 120 55 0; reading 180 60 0]
  = Ok ([], []).
Proof.
  apply (extract_cycles_curr_open_stream 50 50 1 (1 # 20) 600 60
           [reading 0 55 0; reading 60 55 0; reading 120 55 0; reading 180 60 0]).
  - repeat (constructor; [unfold Qlt; cbn; lia|]). constructor.
  - cbn. lia.
Defined.

(** X11 on the samples of the threshold scenario: one discarded cycle for
    five samples. *)
Lemma extract_cycles_curr_count_witness :
  (2 * (length (@nil Cycle)
        + length [ {| cycle_start := reading 120 55 0;
                      cycle_end := reading 180 60 0;
                      sample_count := 2; thresh_value := 115 # 2 |} ])
   <= length (threshold_scenario 0 0 0 0 0))%nat.
Proof.
  apply (extract_cycles_curr_count 50 50 1 (1 # 20) 600 60
           (threshold_scenario 0 0 0 0 0)).
  reflexivity.
Defined.

(** X14 on the samples of the threshold scenario. *)
Lemma extract_cycles_curr_ordered_witness :
  exists accepted discarded,
    extract_cycles_curr 50 50 1 (1 # 20) 600 60 (threshold_scenario 0 0 0 0 0)
    = Ok (accepted, discarded)
    /\ cycles_ordered accepted /\ cycles_ordered discarded.
Proof.
  apply (extract_cycles_curr_ordered 50 50 1 (1 # 20) 600 60
           (threshold_scenario 0 0 0 0 0)).
  cbn. lia.
Defined.

(** ** More on the SoC-based extractor *)

Lemma last_values_app (n : nat) (a b : list Q) :
  last_values n (last_values n a ++ b) = last_values n (a ++ b).
Proof.
  unfold last_values.
  rewrite !drop_app, drop_drop, !length_app, !length_drop.
  destruct (Nat.le_gt_cases (length a) n); f_equal; f_equal; lia.
Qed.

Lemma deque_append_last_values (maxlen : nat) (h : list Q) (x : Q) :
  deque_append maxlen h x = last_values maxlen (h ++ [x]).
Proof. reflexivity. Qed.

Section SocRuns.
Variable derivate_span : nat.
Variables charge_thresh_start charge_thresh_end : Q.
Variable min_charge_samples : Q.
Variable max_sample_delay : Z.
Variable min_charge_time : Z.
Variable min_charge_amount : Q.
Variable merge_within : Z.

Lemma soc_step_history st sample st' :
  soc_step derivate_span charge_thresh_start charge_thresh_end
           min_charge_samples max_sample_delay min_charge_time
           min_charge_amount merge_within st sample = Ok st' ->
  soc_history st'
  = deque_append derivate_span (soc_history st) (soc_smooth sample).
Proof.
  unfold soc_step. bind_case diff Hdiff. unfold soc_body.
  destruct (soc_charge_start st) as [start|].
  - destruct (Qltb diff charge_thresh_end).
    + bind_case lists Hlists. by intros [= <-].
    + destruct (soc_last_sample st) as [p|]; [|done].
      destruct (_ <? _); [bind_case lists Hlists|]; by intros [= <-].
  - destruct (Qgtb diff charge_thresh_start); by intros [= <-].
Qed.

Lemma soc_loop_history charge_samples :
  forall st st',
    soc_loop derivate_span charge_thresh_start charge_thresh_end
             min_charge_samples max_sample_delay min_charge_time
             min_charge_amount merge_within st charge_samples = Ok st' ->
    last_values derivate_span (soc_history st')
    = last_values derivate_span (soc_history st ++ map soc_smooth charge_samples).
Proof.
  induction charge_samples as [|sample rest IH]; intros st st'.
  - intros [= <-]. cbn [map]. by rewrite app_nil_r.
  - cbn [soc_loop]. bind_case st1 Hstep. intros Hloop.
    rewrite (IH _ _ Hloop), (soc_step_history _ _ _ Hstep).
    rewrite deque_append_last_values, last_values_app.
    by rewrite <- app_assoc.
Qed.

Lemma soc_loop_history_length charge_samples :
  forall st st',
    (length (soc_history st) <= derivate_span)%nat ->
    soc_loop derivate_span charge_thresh_start charge_thresh_end
             min_charge_samples max_sample_delay min_charge_time
             min_charge_amount merge_within st charge_samples = Ok st' ->
    (length (soc_history st') <= derivate_span)%nat.
Proof.
  induction charge_samples as [|sample rest IH]; intros st st' Hlen.
  - by intros [= <-].
  - cbn [soc_loop]. bind_case st1 Hstep. apply IH.
    rewrite (soc_step_history _ _ _ Hstep), length_deque_append. lia.
Qed.

(** X15.  The window of the derivative holds the most recent
    [derivate_span] values of the smoothed state of charge, and all of them
    while fewer have been read: after a run over [charge_samples] it is the
    list of their last [derivate_span] values, oldest first. *)
Theorem soc_history_window charge_samples st :
  soc_loop derivate_span charge_thresh_start charge_thresh_end
           min_charge_samples max_sample_delay min_charge_time
           min_charge_amount merge_within soc_init charge_samples = Ok st ->
  soc_history st = last_values derivate_span (map soc_smooth charge_samples)
  /\ (length (soc_history st) <= derivate_span)%nat.
Proof.
  intros Hloop.
  assert (length (soc_history st) <= derivate_span)%nat as Hlen.
  { apply (soc_loop_history_length charge_samples soc_init); [cbn; lia|done]. }
  split; [|done].
  change (map soc_smooth charge_samples)
    with (soc_history soc_init ++ map soc_smooth charge_samples).
  rewrite <- (soc_loop_history _ _ _ Hloop).
  unfold last_values. replace (length (soc_history st) - derivate_span)%nat
    with 0%nat by lia. reflexivity.
Qed.

Lemma soc_loop_warm_up charge_samples :
  ~ (charge_thresh_start < 0)%Q ->
  forall st,
    soc_cycles st = [] -> soc_discarded_cycles st = [] ->
    soc_charge_start st = None ->
    (length (soc_history st) + length charge_samples < derivate_span)%nat ->
    exists st',
      soc_loop derivate_span charge_thresh_start charge_thresh_end
               min_charge_samples max_sample_delay min_charge_time
               min_charge_amount merge_within st charge_samples = Ok st'
      /\ soc_cycles st' = [] /\ soc_discarded_cycles st' = [].
Proof.
  intros Hthresh. induction charge_samples as [|sample rest IH];
    intros st Hc Hd Hs Hlen; [by eauto|].
  cbn [length] in Hlen. cbn [soc_loop]. unfold soc_step.
  rewrite soc_derivative_filling by (rewrite length_deque_append; lia).
  cbn. unfold soc_body. rewrite Hs.
  assert (Qgtb 0 charge_thresh_start = false) as -> by by apply Qltb_ge.
  cbn. apply IH; cbn; try done.
  rewrite length_deque_append. lia.
Qed.

(** X16.  While the window is filling, the derivative is 0 and no cycle can
    open: for a start threshold that is not negative, a run over fewer than
    [derivate_span] samples returns two empty lists. *)
Theorem extract_cycles_soc_warm_up charge_samples :
  ~ (charge_thresh_start < 0)%Q ->
  (length charge_samples < derivate_span)%nat ->
  extract_cycles_soc derivate_span charge_thresh_start charge_thresh_end
                     min_charge_samples max_sample_delay min_charge_time
                     min_charge_amount merge_within charge_samples
  = Ok ([], []).
Proof.
  intros Hthresh Hlen. unfold extract_cycles_soc.
  destruct (soc_loop_warm_up charge_samples Hthresh soc_init)
    as (st & -> & Hc & Hd); try done.
  cbn. by rewrite Hc, Hd.
Qed.

(** X17.  With a [derivate_span] of 0 or 1 every run over at least one
    sample raises a division by zero at the first sample. *)
Theorem extract_cycles_soc_small_span sample rest :
  (derivate_span <= 1)%nat ->
  extract_cycles_soc derivate_span charge_thresh_start charge_thresh_end
                     min_charge_samples max_sample_delay min_charge_time
                     min_charge_amount merge_within (sample :: rest)
  = Err ZeroDivisionError.
Proof.
  intros Hspan. unfold extract_cycles_soc. cbn [soc_loop]. unfold soc_step.
  assert (soc_derivative derivate_span
            (deque_append derivate_span (soc_history soc_init) (soc_smooth sample))
          = Err ZeroDivisionError) as ->; [|done].
  destruct derivate_span as [|[|n]]; [reflexivity|reflexivity|lia].
Qed.

End SocRuns.

(** X15 after the first four samples of [soc_scenario], with a span of 2. *)
Lemma soc_history_window_witness :
  soc_history soc_charging_state
  = last_values 2 (map soc_smooth (take 4 soc_scenario))
  /\ (length (soc_history soc_charging_state) <= 2)%nat.
Proof.
  apply (soc_history_window 2 (1 # 10) (1 # 10) 1 600 5 (1 # 20) 1800
           (take 4 soc_scenario) soc_charging_state).
  reflexivity.
Defined.

(** X16 on the first nine samples of a rising state of charge, with the
    default span of 10 and the default thresholds. *)
Lemma extract_cycles_soc_warm_up_witness :
  extract_cycles_soc 10 (1 # 1000) (1 # 1000) 100 600 1800 (1 # 20) 1800
                     soc_scenario
  = Ok ([], []).
Proof.
  apply (extract_cycles_soc_warm_up 10 (1 # 1000) (1 # 1000) 100 600 1800
           (1 # 20) 1800 soc_scenario).
  - unfold Qlt; cbn; lia.
  - cbn; lia.
Defined.

(** X17 with a span of 1 and the other parameters at their defaults. *)
Lemma extract_cycles_soc_small_span_witness :
  extract_cycles_soc 1 (1 # 1000) (1 # 1000) 100 600 1800 (1 # 20) 1800
                     (soc_reading 0 (1 # 2) :: [])
  = Err ZeroDivisionError.
Proof.
  apply (extract_cycles_soc_small_span 1 (1 # 1000) (1 # 1000) 100 600 1800
           (1 # 20) 1800 (soc_reading 0 (1 # 2)) []).
  lia.
Defined.


(** The merger returns on the two lists of the merger scenario. *)
Lemma merge_cycles_returns_witness :
  exists merged,
    merge_cycles [interval 10 20 3 TypeA] [interval 25 40 4 TypeS] 10 = Ok merged.
Proof.
  apply (merge_cycles_returns [interval 10 20 3 TypeA] [interval 25 40 4 TypeS] 10).
  - constructor; [cbn; lia|constructor].
  - constructor; [cbn; lia|constructor].
Defined.

(** ** daterange *)

Lemma daterange_loop_ascending (stop step : Z) (n : nat) :
  0 < step ->
  forall (cur : Z) (k : nat) (v : Z),
    daterange_loop n true cur stop step !! k = Some v
    <-> (k < n)%nat /\ v = cur + Z.of_nat k * step
        /\ cur + Z.of_nat k * step < stop.
Proof.
  intros Hstep. induction n as [|n IH]; intros cur k v; cbn [daterange_loop].
  - split; [done|]. intros (Hk & _). lia.
  - unfold daterange_cmp. destruct (Z.ltb_spec cur stop) as [Hlt|Hge].
    + destruct k as [|k]; cbn [lookup list_lookup].
      * split; [intros [= <-]; split; [lia|split; lia]|].
        intros (_ & -> & _). f_equal. lia.
      * unfold daterange_inc. rewrite (IH (cur + step) k v).
        split; intros (Hk & -> & Hv); (split; [lia|split; lia]).
    + split; [done|]. intros (_ & _ & Hv). nia.
Qed.

Lemma daterange_loop_descending (stop step : Z) (n : nat) :
  0 < step ->
  forall (cur : Z) (k : nat) (v : Z),
    daterange_loop n false cur stop step !! k = Some v
    <-> (k < n)%nat /\ v = cur - Z.of_nat k * step
        /\ stop < cur - Z.of_nat k * step.
Proof.
  intros Hstep. induction n as [|n IH]; intros cur k v; cbn [daterange_loop].
  - split; [done|]. intros (Hk & _). lia.
  - unfold daterange_cmp. destruct (Z.ltb_spec stop cur) as [Hlt|Hge].
    + destruct k as [|k]; cbn [lookup list_lookup].
      * split; [intros [= <-]; split; [lia|split; lia]|].
        intros (_ & -> & _). f_equal. lia.
      * unfold daterange_inc. rewrite (IH (cur - step) k v).
        split; intros (Hk & -> & Hv); (split; [lia|split; lia]).
    + split; [done|]. intros (_ & _ & Hv). nia.
Qed.

(** X20.  For [start < stop] and a positive step, the generator yields
    [start], [start + step], [start + 2 * step], ... as long as the value is
    below [stop], and then stops: its [k]-th value exists exactly when
    [start + k * step < stop], and is that number. *)
Theorem daterange_ascending (n : nat) (start stop step : Z) (k : nat) (v : Z) :
  start < stop -> 0 < step ->
  daterange n start stop step !! k = Some v
  <-> (k < n)%nat /\ v = start + Z.of_nat k * step
      /\ start + Z.of_nat k * step < stop.
Proof.
  intros Hlt Hstep. unfold daterange. destruct n as [|n].
  - split; [done|]. intros (Hk & _). lia.
  - apply Z.ltb_lt in Hlt as Hb. rewrite Hb. cbv zeta.
    destruct k as [|k]; cbn [lookup list_lookup].
    + split; [intros [= <-]; split; [lia|split; lia]|].
      intros (_ & -> & _). f_equal. lia.
    + unfold daterange_inc.
      rewrite (daterange_loop_ascending stop step n Hstep (start + step) k v).
      split; intros (Hk & -> & Hv); (split; [lia|split; lia]).
Qed.

Lemma daterange_ascending_witness :
  daterange 10 0 25 10 !! 2%nat = Some 20
  <-> (2 < 10)%nat /\ 20 = 0 + Z.of_nat 2 * 10 /\ 0 + Z.of_nat 2 * 10 < 25.
Proof. apply (daterange_ascending 10 0 25 10 2 20); lia. Defined.

(** X21.  For [stop <= start] and a positive step, the generator counts
    down: it always yields [start] first, also when [start = stop], and then
    [start - step], [start - 2 * step], ... as long as the value is above
    [stop]. *)
Theorem daterange_descending (n : nat) (start stop step : Z) (k : nat) (v : Z) :
  stop <= start -> 0 < step ->
  daterange n start stop step !! k = Some v
  <-> (k < n)%nat /\ v = start - Z.of_nat k * step
      /\ (k = 0%nat \/ stop < start - Z.of_nat k * step).
Proof.
  intros Hle Hstep. unfold daterange. destruct n as [|n].
  - split; [done|]. intros (Hk & _). lia.
  - assert ((start <? stop) = false) as -> by (by apply Z.ltb_ge).
    cbv zeta. destruct k as [|k]; cbn [lookup list_lookup].
    + split; [intros [= <-]; split; [lia|split; [lia|by left]]|].
      intros (_ & -> & _). f_equal. lia.
    + unfold daterange_inc.
      rewrite (daterange_loop_descending stop step n Hstep (start - step) k v).
      split.
      * intros (Hk & -> & Hv). split; [lia|split; [lia|right; lia]].
      * intros (Hk & -> & [Hk0|Hv]); [lia|]. split; [lia|split; lia].
Qed.

Lemma daterange_descending_witness :
  daterange 10 7 7 10 !! 0%nat = Some 7
  <-> (0 < 10)%nat /\ 7 = 7 - Z.of_nat 0 * 10
      /\ (0%nat = 0%nat \/ 7 < 7 - Z.of_nat 0 * 10).
Proof. apply (daterange_descending 10 7 7 10 0 7); lia. Defined.

Lemma daterange_loop_zero_step (ascending : bool) (stop : Z) (n : nat) (cur : Z) :
  daterange_cmp ascending cur stop = true ->
  daterange_loop n ascending cur stop 0 = replicate n cur.
Proof.
  intros Hcmp. induction n as [|n IH]; [done|].
  cbn [daterange_loop replicate]. rewrite Hcmp. f_equal.
  assert (daterange_inc ascending 0 cur = cur) as ->; [|exact IH].
  unfold daterange_inc. destruct ascending; lia.
Qed.

(** X22.  With a step of zero and [start] different from [stop], the
    generator never stops: however many values are asked for, it yields
    [start] that many times. *)
Theorem daterange_zero_step (n : nat) (start stop : Z) :
  start <> stop ->
  daterange n start stop 0 = replicate n start.
Proof.
  intros Hne. unfold daterange. destruct n as [|n]; [done|].
  cbv zeta. cbn [replicate]. f_equal.
  assert (daterange_inc (start <? stop) 0 start = start) as ->.
  { unfold daterange_inc. destruct (start <? stop); lia. }
  apply daterange_loop_zero_step. unfold daterange_cmp.
  destruct (Z.ltb_spec start stop); [done|apply Z.ltb_lt; lia].
Qed.

Lemma daterange_zero_step_witness :
  daterange 1000 0 25 0 = replicate 1000 0.
Proof. apply (daterange_zero_step 1000 0 25). lia. Defined.

(** ** discharge_curr_to_ampere *)

(** X23.  The conversion gives zero amperes exactly for the raw values
    [None], 0 and 504: a raw value of zero is not converted (it would give
    -16.632) but mapped to 0. *)
Theorem discharge_curr_zero (val : Smooth.pyval) :
  (exists q, discharge_curr_to_ampere val = Ok q /\ (q == 0)%Q)
  <-> val = Smooth.VNone
      \/ exists v, val = Smooth.VNum v /\ ((v == 0)%Q \/ (v == 504)%Q).
Proof.
  unfold discharge_curr_to_ampere. destruct val as [|v|t]; cbn.
  - split; [by left|]. intros _. by exists 0%Q.
  - destruct (Qeq_bool v 0) eqn:Hzero; cbn.
    + apply Qeq_bool_iff in Hzero. split.
      * intros _. right. exists v. by split; [|left].
      * intros _. by exists 0%Q.
    + assert (~ (v == 0)%Q) as Hv.
      { intros Hv. apply Qeq_bool_iff in Hv. congruence. }
      split.
      * intros (q & [= <-] & Hq). right. exists v. split; [done|]. right. lra.
      * intros [|(v' & [= <-] & [Hv'|Hv'])]; [done|done|].
        eexists. split; [reflexivity|]. lra.
  - split.
    + by intros (q & [=] & _).
    + intros [|(v & [=] & _)]; done.
Qed.

(** ** preprocess_cycles *)

Lemma insert_cycles_kept (l : list (Cycle * cycle_type)) :
  insert_cycles (map Kept l)
  = Ok (map (fun c => {| row_start_time := Stamp (cycle_start (fst c));
                         row_end_time := Stamp (cycle_end (fst c));
                         row_sample_count := sample_count (fst c);
                         row_avg_thresh_val := thresh_value (fst c);
                         row_type := snd c |}) l).
Proof. induction l as [|c l IH]; [done|]. cbn. by rewrite IH. Qed.

Lemma insert_cycles_ok (l : list merged_cycle) rows :
  insert_cycles l = Ok rows ->
  length rows = length l
  /\ Forall (fun c => is_merged c = false) l
  /\ forall r, r ∈ rows -> exists c, Kept c ∈ l /\ row_type r = snd c.
Proof.
  revert rows. induction l as [|cycle l IH]; intros rows.
  - intros [= <-]. split; [done|]. split; [constructor|].
    intros r Hr. by apply elem_of_nil in Hr.
  - cbn [insert_cycles]. bind_case row Hrow. bind_case rest Hrest.
    intros [= <-]. destruct (IH rest eq_refl) as (Hlen & Hall & Hrows).
    destruct cycle as [c|]; [|done]. injection Hrow as <-.
    split; [cbn; lia|]. split; [by constructor|].
    intros r [->|Hr]%elem_of_cons.
    + exists c. split; [by left|done].
    + destruct (Hrows r Hr) as (c' & Hc' & Ht). exists c'. split; [by right|done].
Qed.

Lemma insert_cycles_merged (l : list merged_cycle) c :
  c ∈ l -> is_merged c = true -> insert_cycles l = Err TypeError.
Proof.
  induction l as [|cycle l IH]; intros Hc Hm; [by apply elem_of_nil in Hc|].
  apply elem_of_cons in Hc as [<-|Hc].
  - by destruct c.
  - cbn [insert_cycles]. destruct cycle as [c'|]; [|done].
    cbn. by rewrite (IH Hc Hm).
Qed.

Lemma insert_cycles_error (l : list merged_cycle) e :
  insert_cycles l = Err e -> exists c, c ∈ l /\ is_merged c = true.
Proof.
  revert e. induction l as [|cycle l IH]; intros e; [done|].
  cbn [insert_cycles]. destruct cycle as [c'|]; cbn.
  - destruct (insert_cycles l) as [rows|e'] eqn:Hl; cbn; [done|].
    intros _. destruct (IH e' eq_refl) as (c & Hc & Hm).
    exists c. split; [by right|done].
  - intros _. eexists. split; [by left|done].
Qed.

Lemma elem_of_map_kept (l : list (Cycle * cycle_type)) c :
  Kept c ∈ map Kept l -> c ∈ l.
Proof.
  induction l as [|a l IH]; cbn [map]; intros Hc; [by apply elem_of_nil in Hc|].
  apply elem_of_cons in Hc as [[= ->]|Hc]; [by left|right; by apply IH].
Qed.

Lemma merge_cycles_kept cycles_a cycles_b merge_within merged c :
  merge_cycles cycles_a cycles_b merge_within = Ok merged ->
  Kept c ∈ merged -> c ∈ cycles_a ++ cycles_b.
Proof.
  unfold merge_cycles. revert cycles_b merged.
  induction cycles_a as [|first rest_a IHa]; intros cycles_b merged.
  - cbn [merge_loop]. intros [= <-] Hc. by apply elem_of_map_kept.
  - induction cycles_b as [|second rest_b IHb] in merged |- *.
    + rewrite merge_loop_nil_r. intros [= <-] Hc. rewrite app_nil_r.
      by apply elem_of_map_kept.
    + rewrite merge_loop_cons.
      destruct (Stamp (cycle_start (fst first)) <? Stamp (cycle_start (fst second))).
      * bind_case x Ex. bind_case xs Exs. intros [= <-] Hc.
        apply elem_of_cons in Hc as [Hc|Hc].
        -- destruct (merge_pair_ok _ _ _ _ Ex) as [Hx|Hx]; rewrite Hx in Hc;
             [|done]. injection Hc as ->. by left.
        -- right. by apply (IHa _ _ Exs).
      * bind_case x Ex. bind_case xs Exs. intros [= <-] Hc.
        apply elem_of_cons in Hc as [Hc|Hc].
        -- destruct (merge_pair_ok _ _ _ _ Ex) as [Hx|Hx]; rewrite Hx in Hc;
             [|done]. injection Hc as ->.
           apply elem_of_app. right. by left.
        -- specialize (IHb _ eq_refl Hc).
           rewrite elem_of_app in IHb. rewrite elem_of_app.
           destruct IHb as [Ha|Hb]; [by left|]. right. by right.
Qed.

Lemma bind_ok_inv {A B} (m : result A) (f : A -> result B) (b : B) :
  m ≫= f = Ok b -> exists a, m = Ok a /\ f a = Ok b.
Proof. destruct m as [a|e]; cbn; [by eauto|done]. Qed.

Lemma tag_cycles_type (type : cycle_type) (l : list Cycle) c :
  c ∈ tag_cycles type l -> snd c = type.
Proof.
  unfold tag_cycles. induction l as [|a l IH]; cbn [map]; intros Hc;
    [by apply elem_of_nil in Hc|].
  apply elem_of_cons in Hc as [->|Hc]; [done|by apply IH].
Qed.

Lemma length_tag_cycles (type : cycle_type) (l : list Cycle) :
  length (tag_cycles type l) = length l.
Proof. unfold tag_cycles. apply length_map. Qed.

(** X24.  When [preprocess_cycles] returns, it has written one row for
    every cycle of the four lists of the two extractors, and none of the rows
    has the type ['M']: a run in which two cycles were merged does not
    return. *)
Theorem preprocess_cycles_rows (charge : list Sample) rows :
  preprocess_cycles charge = Ok rows ->
  Forall (fun r => row_type r <> TypeM) rows
  /\ exists cycles_curr cycles_curr_disc cycles_soc cycles_soc_disc,
       extract_cycles_curr 50 50 100 (5 # 100) (minutes 10) (minutes 10) charge
       = Ok (cycles_curr, cycles_curr_disc)
       /\ extract_cycles_soc 10 (1 # 1000) (1 # 1000) 100 (minutes 10)
                             (minutes 30) (5 # 100) (minutes 30) charge
          = Ok (cycles_soc, cycles_soc_disc)
       /\ length rows
          = (length cycles_curr + length cycles_curr_disc
             + length cycles_soc + length cycles_soc_disc)%nat.
Proof.
  unfold preprocess_cycles.
  destruct (extract_cycles_curr _ _ _ _ _ _ charge) as [[curr curr_disc]|] eqn:Hcurr;
    [|done].
  destruct (extract_cycles_soc _ _ _ _ _ _ _ _ charge) as [[soc soc_disc]|] eqn:Hsoc;
    [|done].
  cbn. unfold write_cycles. cbv zeta. bind_case merged Hmerged. intros Hrows.
  destruct (insert_cycles_ok _ _ Hrows) as (Hlen & _ & Htypes). split.
  - apply Forall_forall. intros r Hr.
    destruct (Htypes r Hr) as (c & Hc & ->).
    rewrite !elem_of_app in Hc. destruct Hc as [Hc|[Hc|Hc]].
    + apply (merge_cycles_kept _ _ _ _ _ Hmerged), elem_of_app in Hc as [Hc|Hc];
        by rewrite (tag_cycles_type _ _ _ Hc).
    + apply elem_of_map_kept in Hc. by rewrite (tag_cycles_type _ _ _ Hc).
    + apply elem_of_map_kept in Hc. by rewrite (tag_cycles_type _ _ _ Hc).
  - exists curr, curr_disc, soc, soc_disc. split; [done|]. split; [done|].
    rewrite Hlen, !length_app, (merge_cycles_length _ _ _ _ Hmerged).
    unfold tag_cycles. rewrite !length_map. lia.
Qed.

(** X24 on the samples of the threshold scenario: one discarded cycle of the
    current-based extractor is written. *)
Lemma preprocess_cycles_rows_witness :
  Forall (fun r => row_type r <> TypeM)
         [ {| row_start_time := 120; row_end_time := 180; row_sample_count := 2;
              row_avg_thresh_val := 115 # 2; row_type := TypeB |} ]
  /\ exists cycles_curr cycles_curr_disc cycles_soc cycles_soc_disc,
       extract_cycles_curr 50 50 100 (5 # 100) (minutes 10) (minutes 10)
                           (threshold_scenario 0 0 0 0 0)
       = Ok (cycles_curr, cycles_curr_disc)
       /\ extract_cycles_soc 10 (1 # 1000) (1 # 1000) 100 (minutes 10)
                             (minutes 30) (5 # 100) (minutes 30)
                             (threshold_scenario 0 0 0 0 0)
          = Ok (cycles_soc, cycles_soc_disc)
       /\ length [ {| row_start_time := 120; row_end_time := 180;
                      row_sample_count := 2; row_avg_thresh_val := 115 # 2;
                      row_type := TypeB |} ]
          = (length cycles_curr + length cycles_curr_disc
             + length cycles_soc + length cycles_soc_disc)%nat.
Proof.
  apply (preprocess_cycles_rows (threshold_scenario 0 0 0 0 0)). reflexivity.
Defined.

(** X25.  Once the merger has returned, writing fails, with a type error,
    exactly when the merged list holds a merged cycle: the values of its row
    are read as from an input tuple, and its first component is a datetime,
    not a sample. *)
Theorem write_cycles_merged cycles_curr cycles_curr_disc cycles_soc
    cycles_soc_disc merged :
  merge_cycles (tag_cycles TypeA cycles_curr) (tag_cycles TypeS cycles_soc)
               (minutes 30) = Ok merged ->
  write_cycles cycles_curr cycles_curr_disc cycles_soc cycles_soc_disc
  = Err TypeError
  <-> exists c, c ∈ merged /\ is_merged c = true.
Proof.
  intros Hmerged. unfold write_cycles. cbv zeta. rewrite Hmerged. cbn. split.
  - intros Herr. destruct (insert_cycles_error _ _ Herr) as (c & Hc & Hm).
    exists c. split; [|done].
    rewrite !elem_of_app in Hc. destruct Hc as [Hc|[Hc|Hc]]; [done| |];
      apply list_elem_of_In, in_map_iff in Hc as (c' & <- & _); done.
  - intros (c & Hc & Hm). apply (insert_cycles_merged _ c); [|done].
    apply elem_of_app. by left.
Qed.

Lemma write_cycles_merged_witness :
  write_cycles [fst (interval 10 20 3 TypeA)] [] [fst (interval 25 40 4 TypeS)] []
  = Err TypeError
  <-> exists c,
        c ∈ [Merged 10 40 (3 + 4)%Q 5 TypeM; Kept (interval 25 40 4 TypeS)]
        /\ is_merged c = true.
Proof.
  apply (write_cycles_merged [fst (interval 10 20 3 TypeA)] []
           [fst (interval 25 40 4 TypeS)] []).
  reflexivity.
Defined.

(** A loop that runs to its end has executed the rows it returns. *)
Lemma executed_rows_ok (l : list merged_cycle) rows :
  insert_cycles l = Ok rows -> executed_rows l = rows.
Proof.
  revert rows. induction l as [|cycle l IH]; intros rows; [by intros [= <-]|].
  cbn [insert_cycles executed_rows]. bind_case row Hrow. bind_case rest Hrest.
  intros [= <-]. by rewrite (IH rest eq_refl).
Qed.

(** X26.  When the first accepted cycle of the current-based extractor and
    the first accepted cycle of the SoC-based extractor overlap, and every
    accepted cycle starts no later than it ends, writing raises a type error
    before any row has been given to [cursor.execute]: the two cycles are
    merged, the merged cycle is the first element of the list, and its row
    cannot be built. *)
Theorem write_cycles_overlap first_curr rest_curr cycles_curr_disc first_soc
    rest_soc cycles_soc_disc :
  Forall (fun c => Stamp (cycle_start c) <= Stamp (cycle_end c))
         (first_curr :: rest_curr) ->
  Forall (fun c => Stamp (cycle_start c) <= Stamp (cycle_end c))
         (first_soc :: rest_soc) ->
  intervals_overlap first_curr first_soc ->
  write_cycles (first_curr :: rest_curr) cycles_curr_disc
               (first_soc :: rest_soc) cycles_soc_disc
  = Err TypeError
  /\ write_cycles_executed (first_curr :: rest_curr) cycles_curr_disc
                           (first_soc :: rest_soc) cycles_soc_disc
     = [].
Proof.
  intros Hcurr Hsoc Hover. unfold write_cycles, write_cycles_executed. cbv zeta.
  destruct (merge_loop_returns (minutes 30)
              (tag_cycles TypeA (first_curr :: rest_curr))
              (tag_cycles TypeS (first_soc :: rest_soc)))
    as [merged Hmerged].
  { unfold tag_cycles. apply Forall_map. by eapply Forall_impl; [exact Hcurr|]. }
  { unfold tag_cycles. apply Forall_map. by eapply Forall_impl; [exact Hsoc|]. }
  assert (exists c rest, merged = c :: rest /\ is_merged c = true)
    as (c & rest & -> & Hm).
  { assert (forall first second,
              intervals_overlap first second ->
              forall x, merge_pair first second (minutes 30) = Ok x ->
                        is_merged x = true) as Hpair.
    { intros first second Hov x. unfold merge_pair.
      rewrite (can_merge_overlap first second) by exact Hov.
      cbn. by intros [= <-]. }
    revert Hmerged. unfold tag_cycles. cbn [map].
    rewrite merge_loop_cons. cbn [fst].
    destruct (_ <? _).
    - intros Hrun.
      apply bind_ok_inv in Hrun as (x & Hx & Hrun).
      apply bind_ok_inv in Hrun as (xs & _ & [= <-]).
      exists x, xs. split; [done|].
      apply (Hpair (first_curr, TypeA) (first_soc, TypeS)); [exact Hover|done].
    - intros Hrun.
      apply bind_ok_inv in Hrun as (x & Hx & Hrun).
      apply bind_ok_inv in Hrun as (xs & _ & [= <-]).
      exists x, xs. split; [done|].
      apply (Hpair (first_soc, TypeS) (first_curr, TypeA)); [|done].
      unfold intervals_overlap in *. cbn in *. lia. }
  unfold merge_cycles. rewrite Hmerged. by destruct c.
Qed.

Lemma write_cycles_overlap_witness :
  write_cycles (fst (interval 10 30 3 TypeA) :: []) []
               (fst (interval 25 40 4 TypeS) :: []) []
  = Err TypeError
  /\ write_cycles_executed (fst (interval 10 30 3 TypeA) :: []) []
                           (fst (interval 25 40 4 TypeS) :: []) []
     = [].
Proof.
  apply (write_cycles_overlap (fst (interval 10 30 3 TypeA)) [] []
           (fst (interval 25 40 4 TypeS)) [] []).
  - constructor; [cbn; lia|constructor].
  - constructor; [cbn; lia|constructor].
  - unfold intervals_overlap. cbn. lia.
Defined.
